(** * english_games_word: the vocabulary graph, its loader and its query service

    A shallow embedding of [word_parser.py] (root identification),
    [neo4j_import.py] (the graph loader) and the store-facing part of
    [app.py] (the [WordGame] query service, the prize store and the parent
    login decision), together with the properties of the specification that
    concern them.

    The Cypher statements of the source are embedded by their meaning on a
    property graph: nodes carry an identity, a label and a property map,
    relationships carry a type, two end points and a property map.  The
    Python code around them is embedded in a small state-and-exception monad
    over a world that holds the store, the connection singleton and the
    condition of the network link. *)

From stdpp Require Import gmap strings list fin_maps.
From Stdlib Require Import ZArith Ascii.

(* ===================================================================== *)
(** * The property graph and the Cypher fragments the source uses *)
(* ===================================================================== *)

Module Cypher.

(** Property values.  [VTime] stands for the result of [datetime()]. *)
Inductive Value :=
  | VNull
  | VBool (b : bool)
  | VInt (z : Z)
  | VStr (s : string)
  | VTime (t : nat).

#[global] Instance Value_eq_dec : EqDecision Value.
Proof. solve_decision. Defined.

(** Node labels and relationship types of the schema. *)
Inductive Label := Word | Grade | Root | User | Prize | Floor.

#[global] Instance Label_eq_dec : EqDecision Label.
Proof. solve_decision. Defined.

Inductive RelType := BELONGS_TO | HAS_ROOT | SAME_ROOT.

#[global] Instance RelType_eq_dec : EqDecision RelType.
Proof. solve_decision. Defined.

Record Node := mkNode {
  nid : nat;
  nlabel : Label;
  nprops : gmap string Value
}.

#[global] Instance Node_eq_dec : EqDecision Node.
Proof. solve_decision. Defined.

Record Rel := mkRel {
  rtype : RelType;
  rsrc : nat;
  rdst : nat;
  rprops : gmap string Value
}.

#[global] Instance Rel_eq_dec : EqDecision Rel.
Proof. solve_decision. Defined.

(** The store: nodes in creation order, relationships in creation order.
    A relationship is identified by its position in [rels]. *)
Record Graph := mkGraph {
  nodes : list Node;
  rels : list Rel
}.

#[global] Instance Graph_eq_dec : EqDecision Graph.
Proof. solve_decision. Defined.

Definition empty_graph : Graph := mkGraph [] [].

(** A returned record: field names with their values, in RETURN order. *)
Abbreviation Row := (list (string * Value)).

(** ** Three-valued logic of WHERE *)

Definition cy_eq (a b : Value) : option bool :=
  match a, b with
  | VNull, _ | _, VNull => None
  | _, _ => Some (bool_decide (a = b))
  end.

Definition cy_neq (a b : Value) : option bool := negb <$> cy_eq a b.

Definition cy_is_not_null (a : Value) : option bool :=
  Some (bool_decide (a ≠ VNull)).

Definition cy_and (x y : option bool) : option bool :=
  match x, y with
  | Some false, _ | _, Some false => Some false
  | Some true, Some true => Some true
  | _, _ => None
  end.

(** [a IN l]: true when some element equals [a], unknown when none does
    but a comparison was unknown, false otherwise. *)
Definition cy_in (a : Value) (l : list Value) : option bool :=
  if existsb (λ b, bool_decide (cy_eq a b = Some true)) l then Some true
  else if existsb (λ b, bool_decide (cy_eq a b = None)) l then None
  else Some false.

(** A row passes WHERE exactly when the predicate is true. *)
Definition passes (o : option bool) : bool := bool_decide (o = Some true).

(** ** Properties *)

(** [n.k]: a missing property reads as null. *)
Definition prop (n : Node) (k : string) : Value := default VNull (nprops n !! k).

Definition rprop (r : Rel) (k : string) : Value := default VNull (rprops r !! k).

(** [SET n.k = v]: setting null removes the property. *)
Definition set_prop (k : string) (v : Value) (m : gmap string Value) : gmap string Value :=
  match v with
  | VNull => delete k m
  | _ => <[k := v]> m
  end.

Definition set_props (kvs : list (string * Value)) (m : gmap string Value) : gmap string Value :=
  foldl (λ m kv, set_prop kv.1 kv.2 m) m kvs.

Definition upd_props (kvs : list (string * Value)) (n : Node) : Node :=
  mkNode (nid n) (nlabel n) (set_props kvs (nprops n)).

(** ** Node patterns, MERGE and SET *)

(** The pattern [(x:l {k: v})]. *)
Definition node_matches (l : Label) (k : string) (v : Value) (n : Node) : bool :=
  bool_decide (nlabel n = l) && passes (cy_eq (prop n k) v).

Definition match_nodes (l : Label) (k : string) (v : Value) (g : Graph) : list Node :=
  List.filter (node_matches l k v) (nodes g).

(** The pattern [(x:l)]. *)
Definition has_label (l : Label) (n : Node) : bool := bool_decide (nlabel n = l).

(** The identity given to a created node: one the store does not use. *)
Definition fresh_id (g : Graph) : nat := S (max_list (nid <$> nodes g)).

(** One row of [MERGE (x:l {k: v}) SET x.k1 = v1, ...]: every node the
    pattern binds gets the properties; when it binds none, a node with the
    key property is created and gets them. *)
Definition merge_set (l : Label) (k : string) (v : Value)
    (kvs : list (string * Value)) (g : Graph) : Graph :=
  if existsb (node_matches l k v) (nodes g)
  then mkGraph ((λ n, if node_matches l k v n then upd_props kvs n else n) <$> nodes g)
               (rels g)
  else mkGraph (nodes g ++ [mkNode (fresh_id g) l (set_props kvs {[ k := v ]})])
               (rels g).

(** ** Relationship patterns and MERGE *)

(** A relationship to merge: type, end points and the properties the
    pattern names. *)
Record RelReq := mkReq {
  qtype : RelType;
  qsrc : nat;
  qdst : nat;
  qprops : list (string * Value)
}.

Definition rel_matches (q : RelReq) (r : Rel) : bool :=
  bool_decide (rtype r = qtype q) && bool_decide (rsrc r = qsrc q)
  && bool_decide (rdst r = qdst q)
  && forallb (λ kv, passes (cy_eq (rprop r kv.1) kv.2)) (qprops q).

Definition rel_of_req (q : RelReq) : Rel :=
  mkRel (qtype q) (qsrc q) (qdst q) (set_props (qprops q) ∅).

(** One row of [MERGE (a)-[:T {props}]->(b)] with [a] and [b] bound. *)
Definition merge_rel (q : RelReq) (g : Graph) : Graph :=
  if existsb (rel_matches q) (rels g) then g
  else mkGraph (nodes g) (rels g ++ [rel_of_req q]).

Definition merge_rels (qs : list RelReq) (g : Graph) : Graph :=
  foldl (λ g q, merge_rel q g) g qs.

(** ** DELETE *)

Definition touches (i : nat) (r : Rel) : bool :=
  bool_decide (rsrc r = i) || bool_decide (rdst r = i).

(** [DETACH DELETE] of the nodes selected by [sel]: the nodes go, and so
    does every relationship with an end point among them. *)
Definition detach_delete (sel : Node → bool) (g : Graph) : Graph :=
  let gone := nid <$> List.filter sel (nodes g) in
  mkGraph (List.filter (λ n, negb (sel n)) (nodes g))
          (List.filter (λ r, negb (existsb (λ i, touches i r) gone)) (rels g)).

(** Plain [DELETE] of the nodes selected by [sel]: the store refuses the
    statement, and changes nothing, when a selected node still has a
    relationship. *)
Definition delete_nodes (sel : Node → bool) (g : Graph) : option Graph :=
  let gone := nid <$> List.filter sel (nodes g) in
  if existsb (λ r, existsb (λ i, touches i r) gone) (rels g) then None
  else Some (mkGraph (List.filter (λ n, negb (sel n)) (nodes g)) (rels g)).

End Cypher.

(* ===================================================================== *)
(** * word_parser.py: entries and root identification *)
(* ===================================================================== *)

Module word_parser.

(** The dataclass [Word]. *)
Record Word := mkWord {
  word : string;
  phonetic : string;
  pos : string;
  definition : string;
  page : string;
  grade : string;
  difficulty : Z;
  is_phrase : bool;
  root : string
}.

#[global] Instance Word_eq_dec : EqDecision Word.
Proof. solve_decision. Defined.

(** The assignment [w.root = r] on one entry. *)
Definition set_root (r : string) (w : Word) : Word :=
  mkWord (word w) (phonetic w) (pos w) (definition w) (page w) (grade w)
         (difficulty w) (is_phrase w) r.

(** [COMMON_ROOTS], in definition order (a Python dict iterates in
    insertion order). *)
Definition COMMON_ROOTS : list (string * list string) := [
  ("act", ["act"; "action"; "active"; "activity"; "actor"; "actress"; "actually"; "react"; "interaction"]);
  ("port", ["port"; "import"; "export"; "transport"; "portable"; "report"; "support"; "airport"]);
  ("dict", ["dictionary"; "predict"; "contradict"; "indicate"]);
  ("ject", ["project"; "reject"; "inject"; "object"; "subject"]);
  ("spect", ["respect"; "expect"; "inspect"; "aspect"; "spectator"]);
  ("struct", ["structure"; "construct"; "instruct"; "destroy"]);
  ("vis/vid", ["visible"; "visit"; "vision"; "video"; "provide"; "divide"]);
  ("aud", ["audience"; "audio"; "auditorium"]);
  ("scrib/script", ["describe"; "subscribe"; "script"; "prescription"]);
  ("duc/duct", ["produce"; "reduce"; "introduce"; "conduct"; "educate"]);
  ("form", ["form"; "inform"; "perform"; "transform"; "uniform"]);
  ("mit/mis", ["permit"; "submit"; "admit"; "promise"; "mission"]);
  ("vent/ven", ["event"; "prevent"; "invent"; "adventure"; "avenue"]);
  ("tend/tens", ["attend"; "extend"; "intend"; "tension"]);
  ("cess/ced", ["process"; "success"; "access"; "proceed"]);
  ("press", ["express"; "impress"; "pressure"; "depress"]);
  ("serve", ["serve"; "reserve"; "preserve"; "observe"; "service"]);
  ("sist", ["assist"; "consist"; "insist"; "resist"; "exist"]);
  ("cap/cep/ceiv", ["accept"; "receive"; "capable"; "capture"]);
  ("cred", ["credit"; "incredible"; "credible"])
]%string.

(** [GRADE_DIFFICULTY.get(grade, 2)]. *)
Definition GRADE_DIFFICULTY : list (string * Z) := [
  ("7年级上册", 1); ("7年级下册", 1); ("8年级上册", 2); ("8年级下册", 2); ("9年级", 3)
]%string%Z.

(** [s.split('/')[0]]: the text before the first slash, all of [s] when it
    has none. *)
Fixpoint before_slash (s : string) : string :=
  match s with
  | EmptyString => EmptyString
  | String c s' => if Ascii.eqb c "/"%char then EmptyString else String c (before_slash s')
  end.

(** [str.lower] on the ASCII letters; other bytes are left as they are. *)
Definition lower_ascii (c : ascii) : ascii :=
  let n := Ascii.nat_of_ascii c in
  if (65 <=? n)%nat && (n <=? 90)%nat then Ascii.ascii_of_nat (n + 32) else c.

Fixpoint ascii_lower (s : string) : string :=
  match s with
  | EmptyString => EmptyString
  | String c s' => String (lower_ascii c) (ascii_lower s')
  end.

Section identify_roots.

(** The case folding [str.lower]; the pass is the same whatever it does
    outside ASCII. *)
Variable lower : string → string.

(** [{w.word.lower(): w for w in self.words}]: each key is bound to the
    entry object, here its position in [self.words]; a later entry with the
    same key replaces an earlier one. *)
Definition word_lower_map (ws : list Word) : gmap string nat :=
  foldl (λ m iw, <[lower (word iw.2) := iw.1]> m) ∅ (imap pair ws).

(** The body of the inner loop, for one member [word_text] of the family
    [root_key]. *)
Definition assign_member (m : gmap string nat) (root_key : string)
    (ws : list Word) (word_text : string) : list Word :=
  match m !! lower word_text with
  | Some i => alter (set_root (before_slash root_key)) i ws
  | None => ws
  end.

Definition assign_family (m : gmap string nat) (ws : list Word)
    (fam : string * list string) : list Word :=
  foldl (assign_member m fam.1) ws fam.2.

(** [_identify_roots] over a root table [table]. *)
Definition identify_roots_with (table : list (string * list string))
    (ws : list Word) : list Word :=
  foldl (assign_family (word_lower_map ws)) ws table.

Definition _identify_roots (ws : list Word) : list Word :=
  identify_roots_with COMMON_ROOTS ws.

(** Whether a family lists a key among its members. *)
Definition lists_key (key : string) (fam : string * list string) : bool :=
  bool_decide (key ∈ lower <$> fam.2).

(** The label a key ends with: the primary label of the last family, in
    table order, that lists the key ([start] when none does). *)
Definition winning_root_from (start : option string)
    (table : list (string * list string)) (key : string) : option string :=
  foldl (λ acc fam, if lists_key key fam then Some (before_slash fam.1) else acc)
        start table.

Definition winning_root (table : list (string * list string)) (key : string)
    : option string :=
  winning_root_from None table key.

End identify_roots.

(** [get_all_roots]: the roots in use.  The source builds them through a
    Python [set], whose order is not fixed; the order of first appearance
    stands for it here, and the loader is studied for every order. *)
Definition get_all_roots (ws : list Word) : list string :=
  remove_dups (List.filter (λ r, negb (String.eqb r "")) (root <$> ws)).

End word_parser.

(* ===================================================================== *)
(** * neo4j_import.py: the graph loader *)
(* ===================================================================== *)

(** The loader's statements are embedded on a reachable store: a
    [session.run] applies its statement, and a statement the store refuses
    (or a Python error before it) ends the run, written [None]. *)

Module neo4j_import.
Import Cypher.

(** [Word.to_dict]. *)
Definition to_dict (w : word_parser.Word) : Row := [
  ("word", VStr (word_parser.word w));
  ("phonetic", VStr (word_parser.phonetic w));
  ("pos", VStr (word_parser.pos w));
  ("definition", VStr (word_parser.definition w));
  ("page", VStr (word_parser.page w));
  ("grade", VStr (word_parser.grade w));
  ("difficulty", VInt (word_parser.difficulty w));
  ("is_phrase", VBool (word_parser.is_phrase w));
  ("root", VStr (word_parser.root w))
]%string.

(** [w.k] on a map parameter of a statement: null when the key is absent. *)
Fixpoint field (d : Row) (k : string) : Value :=
  match d with
  | [] => VNull
  | (k', v) :: d' => if String.eqb k' k then v else field d' k
  end.

(** Python truthiness of a value, as [if x:] and [w.get('root')] use it. *)
Definition truthy (v : Value) : bool :=
  match v with
  | VNull => false
  | VBool b => b
  | VInt z => negb (z =? 0)%Z
  | VStr s => negb (String.eqb s "")
  | VTime _ => true
  end.

(** [clear_database]: [MATCH (n) DETACH DELETE n]. *)
Definition clear_database (g : Graph) : Graph := detach_delete (λ _, true) g.

(** The rows of [import_grades]. *)
Definition grades : list Row := [
  [("name", VStr "7年级上册"); ("level", VInt 1); ("floor_start", VInt 1); ("floor_end", VInt 2)];
  [("name", VStr "7年级下册"); ("level", VInt 2); ("floor_start", VInt 2); ("floor_end", VInt 3)];
  [("name", VStr "8年级上册"); ("level", VInt 3); ("floor_start", VInt 4); ("floor_end", VInt 5)];
  [("name", VStr "8年级下册"); ("level", VInt 4); ("floor_start", VInt 5); ("floor_end", VInt 6)];
  [("name", VStr "9年级"); ("level", VInt 5); ("floor_start", VInt 7); ("floor_end", VInt 9)]
]%string%Z.

(** One row of [MERGE (g:Grade {name: grade.name}) SET g.level = ...]. *)
Definition grade_columns (grade : Row) : list (string * Value) := [
  ("level", field grade "level");
  ("floor_start", field grade "floor_start");
  ("floor_end", field grade "floor_end")
]%string.

Definition import_grades_query (rows : list Row) (g : Graph) : Graph :=
  foldl (λ g grade, merge_set Grade "name" (field grade "name") (grade_columns grade) g)
        g rows.

Definition import_grades (g : Graph) : Graph := import_grades_query grades g.

(** [import_roots]: [root_data] keeps the non-empty names; nothing is run
    for an empty list. *)
Definition root_data (roots : list string) : list Row :=
  (λ r, [("name", VStr r)]%string) <$> List.filter (λ r, truthy (VStr r)) roots.

Definition import_roots_query (rows : list Row) (g : Graph) : Graph :=
  foldl (λ g root, merge_set Root "name" (field root "name") [] g) g rows.

Definition import_roots (roots : list string) (g : Graph) : Graph :=
  match root_data roots with
  | [] => g
  | rows => import_roots_query rows g
  end.

(** [create_word_query]. *)
Definition word_columns (w : Row) : list (string * Value) := [
  ("phonetic", field w "phonetic");
  ("pos", field w "pos");
  ("definition", field w "definition");
  ("page", field w "page");
  ("difficulty", field w "difficulty");
  ("is_phrase", field w "is_phrase");
  ("mastered_count", VInt 0);
  ("wrong_count", VInt 0)
]%string.

Definition create_word_query (rows : list Row) (g : Graph) : Graph :=
  foldl (λ g w, merge_set Word "word" (field w "word") (word_columns w) g) g rows.

(** [grade_relation_query]: the rows both MATCH clauses bind, then one
    MERGE for each. *)
Definition grade_relation_rows (rows : list Row) (g : Graph) : list RelReq :=
  w ← rows;
  word ← match_nodes Word "word" (field w "word") g;
  grade ← match_nodes Grade "name" (field w "grade") g;
  [mkReq BELONGS_TO (nid word) (nid grade) []].

Definition grade_relation_query (rows : list Row) (g : Graph) : Graph :=
  merge_rels (grade_relation_rows rows g) g.

(** [root_relation_query]. *)
Definition root_relation_rows (rows : list Row) (g : Graph) : list RelReq :=
  w ← rows;
  word ← match_nodes Word "word" (field w "word") g;
  if passes (cy_and (cy_is_not_null (field w "root")) (cy_neq (field w "root") (VStr "")))
  then root ← match_nodes Root "name" (field w "root") g;
       [mkReq HAS_ROOT (nid word) (nid root) []]
  else [].

Definition root_relation_query (rows : list Row) (g : Graph) : Graph :=
  merge_rels (root_relation_rows rows g) g.

(** [range(0, stop, step)]: refused for a zero step, empty for a negative
    one. *)
Definition py_range (stop : nat) (step : Z) : option (list nat) :=
  if (step =? 0)%Z then None
  else if (step <? 0)%Z then Some []
  else let s := Z.to_nat step in
       Some ((λ j, j * s) <$> seq 0 ((stop + s - 1) `div` s)).

(** The slices [word_data[i:i + batch_size]] the two batch loops run on. *)
Definition batches {A} (batch_size : Z) (l : list A) : option (list (list A)) :=
  match py_range (length l) batch_size with
  | Some starts => Some ((λ i, take (Z.to_nat batch_size) (drop i l)) <$> starts)
  | None => None
  end.

(** [import_words]. *)
Definition import_words (words : list word_parser.Word) (batch_size : Z)
    (g : Graph) : option Graph :=
  let word_data := to_dict <$> words in
  match batches batch_size word_data with
  | None => None
  | Some bs =>
    let g := foldl (λ g batch, create_word_query batch g) g bs in
    let g := foldl (λ g batch, grade_relation_query batch g) g bs in
    let words_with_root := List.filter (λ w, truthy (field w "root")) word_data in
    Some (match words_with_root with
          | [] => g
          | _ => root_relation_query words_with_root g
          end)
  end.

(** [create_same_root_relations]: the rows of
    [(w1:Word)-[:HAS_ROOT]->(r:Root)<-[:HAS_ROOT]-(w2:Word)], where the two
    relationships of a row are different relationships, kept when
    [id(w1) < id(w2)]. *)
Definition same_root_rows (g : Graph) : list (Node * Node * Node) :=
  '(i, e1) ← imap pair (rels g);
  if bool_decide (rtype e1 = HAS_ROOT) then
    w1 ← List.filter (λ n, has_label Word n && bool_decide (nid n = rsrc e1)) (nodes g);
    r ← List.filter (λ n, has_label Root n && bool_decide (nid n = rdst e1)) (nodes g);
    '(j, e2) ← imap pair (rels g);
    if bool_decide (rtype e2 = HAS_ROOT) && bool_decide (i ≠ j)
       && bool_decide (rdst e2 = nid r) then
      w2 ← List.filter (λ n, has_label Word n && bool_decide (nid n = rsrc e2)) (nodes g);
      if bool_decide (nid w1 < nid w2) then [(w1, r, w2)] else []
    else []
  else [].

Definition same_root_req (row : Node * Node * Node) : RelReq :=
  mkReq SAME_ROOT (nid row.1.1) (nid row.2) [("root", prop row.1.2 "name")]%string.

(** MERGE refuses a null property value; the statement then fails as a
    whole. *)
Definition create_same_root_relations (g : Graph) : option Graph :=
  let rows := same_root_rows g in
  if existsb (λ row, bool_decide (prop row.1.2 "name" = VNull)) rows then None
  else Some (merge_rels (same_root_req <$> rows) g).

(** [create_difficulty_floor_mapping]. *)
Definition floor_difficulty (floor_num : Z) : Z :=
  if (floor_num <=? 3)%Z then 1
  else if (floor_num <=? 5)%Z then 2
  else if (floor_num <=? 7)%Z then 3
  else 4.

Definition create_difficulty_floor_mapping (g : Graph) : Graph :=
  foldl (λ g floor_num,
           merge_set Floor "number" (VInt floor_num)
                     [("difficulty", VInt (floor_difficulty floor_num))]%string g)
        g [1; 2; 3; 4; 5; 6; 7; 8; 9]%Z.

(** [get_statistics], in the order of its keys: words, grades, roots,
    belongs_to, has_root, same_root. *)
Record Statistics := mkStatistics {
  st_words : nat;
  st_grades : nat;
  st_roots : nat;
  st_belongs_to : nat;
  st_has_root : nat;
  st_same_root : nat
}.

Definition count_label (l : Label) (g : Graph) : nat :=
  length (List.filter (has_label l) (nodes g)).

Definition count_type (t : RelType) (g : Graph) : nat :=
  length (List.filter (λ r, bool_decide (rtype r = t)) (rels g)).

Definition get_statistics (g : Graph) : Statistics :=
  mkStatistics (count_label Word g) (count_label Grade g) (count_label Root g)
               (count_type BELONGS_TO g) (count_type HAS_ROOT g) (count_type SAME_ROOT g).

(** Steps 5 to 9 of [main]: the load proper, on the store as it stands.
    [roots] is the list handed to [import_roots]. *)
Definition load (roots : list string) (words : list word_parser.Word)
    (batch_size : Z) (g : Graph) : option Graph :=
  let g := import_grades g in
  let g := import_roots roots g in
  match import_words words batch_size g with
  | None => None
  | Some g =>
    match create_same_root_relations g with
    | None => None
    | Some g => Some (create_difficulty_floor_mapping g)
    end
  end.

(** [main] from step 3 on, [words] being what [parser.parse()] returned:
    the store is cleared first, the roots are [parser.get_all_roots()],
    and [import_words] runs with its default batch size.  Step 4 declares
    uniqueness constraints on the keys the MERGE statements use; each
    declaration is guarded, and no statement of the load depends on it. *)
Definition main (words : list word_parser.Word) (g : Graph) : option Graph :=
  load (word_parser.get_all_roots words) words 100 (clear_database g).

End neo4j_import.

(* ===================================================================== *)
(** * app.py: the connection singleton and the query service *)
(* ===================================================================== *)

Module app.
Import Cypher.

(** [ADMIN_PASSWORDS]. *)
Definition ADMIN_PASSWORDS : list (string * string) :=
  [("parent", "admin666"); ("teacher", "admin888")]%string.

Definition admin_password (role : string) : string :=
  default ""%string (snd <$> List.find (λ kv, String.eqb kv.1 role) ADMIN_PASSWORDS).

(** ** The world a call runs in *)

(** Exceptions that reach the Python code. *)
Inductive exn :=
  | ServiceUnavailable          (** the store cannot be reached *)
  | ClientError                 (** the store refuses the statement *)
  | ConfigurationError          (** the driver refuses the URI *)
  | KeyError (k : string).      (** a dict subscript with a missing key *)

#[global] Instance exn_eq_dec : EqDecision exn.
Proof. solve_decision. Defined.

Inductive outcome (A : Type) :=
  | Returned (a : A)
  | Raised (e : exn).
Arguments Returned {A} a.
Arguments Raised {A} e.

(** [link] is the condition of the network: [None] when it never fails,
    [Some n] when it carries [n] more statements and then is down.
    [env_ok] is [all([uri, username, password])]; [uri_ok] tells whether
    [GraphDatabase.driver] accepts the URI; [driver] tells whether the
    singleton's [driver] attribute is set. *)
Record World := mkWorld {
  store : Graph;
  link : option nat;
  clock : nat;
  env_ok : bool;
  uri_ok : bool;
  driver : bool
}.

Definition Py (A : Type) : Type := World → outcome A * World.

Definition ret {A} (a : A) : Py A := λ w, (Returned a, w).

Definition raise {A} (e : exn) : Py A := λ w, (Raised e, w).

Definition bind {A B} (m : Py A) (k : A → Py B) : Py B := λ w,
  match m w with
  | (Returned a, w') => k a w'
  | (Raised e, w') => (Raised e, w')
  end.

(** [try: m except: h]. *)
Definition try_except {A} (m : Py A) (h : Py A) : Py A := λ w,
  match m w with
  | (Returned a, w') => (Returned a, w')
  | (Raised _, w') => h w'
  end.

Notation "'let*' x ':=' m 'in' k" := (bind m (λ x, k))
  (at level 10, x pattern, m at level 100, k at level 200).

(** A statement, given the time of the call: the store refuses it
    ([None]) or answers and moves to a new state. *)
Definition Statement (R : Type) : Type := nat → Graph → option (R * Graph).

(** [session.run(...)] as an auto-commit transaction: all of the
    statement's effect or none of it. *)
Definition session_run {R} (q : Statement R) : Py R := λ w,
  match link w with
  | Some 0 => (Raised ServiceUnavailable, w)
  | _ =>
    let w' := mkWorld (store w) (pred <$> link w) (S (clock w))
                      (env_ok w) (uri_ok w) (driver w) in
    match q (clock w) (store w) with
    | None => (Raised ClientError, w')
    | Some (r, g') =>
      (Returned r,
       mkWorld g' (pred <$> link w) (S (clock w)) (env_ok w) (uri_ok w) (driver w))
    end
  end.

(** [with session: session.run(...)] where nothing reads the result and
    nothing else runs in the session.  The statement is sent; what the
    store answers when the transaction commits is read only as the session
    closes, and a refusal found there is dropped: nothing is raised, and
    the store is as it was.  For a statement the store does not refuse
    this is [session_run]. *)
Definition session_run_unread (q : Statement unit) : Py unit := λ w,
  match link w with
  | Some 0 => (Raised ServiceUnavailable, w)
  | _ =>
    (Returned tt,
     mkWorld (default (store w) (snd <$> q (clock w) (store w)))
             (pred <$> link w) (S (clock w)) (env_ok w) (uri_ok w) (driver w))
  end.

Definition set_driver (b : bool) : Py unit := λ w,
  (Returned tt, mkWorld (store w) (link w) (clock w) (env_ok w) (uri_ok w) b).

(** [RETURN 1]. *)
Definition return_1 : Statement (list Row) := λ _ g, Some ([[("1", VInt 1)]%string], g).

(** [Neo4jConnection.connect]. *)
Definition connect : Py bool := λ w,
  if driver w then (Returned true, w)
  else if env_ok w then
    try_except
      (if uri_ok w then
         let* _ := set_driver true in
         let* _ := session_run return_1 in
         ret true
       else raise ConfigurationError)
      (ret false) w
  else (Returned false, w).

(** [Neo4jConnection.get_session]: [true] for a session, [false] for
    [None]. *)
Definition get_session : Py bool :=
  let* ok := connect in ret ok.

(** ** Reading statements *)

Section queries.

(** The order [ORDER BY rand()] leaves the rows in. *)
Variable rand_order : ∀ A : Type, list A → list A.

(** [floor_grade_map.get(floor, ["7年级上册"])]. *)
Definition floor_grade_map : list (Z * list string) := [
  (1, ["7年级上册"]);
  (2, ["7年级上册"; "7年级下册"]);
  (3, ["7年级下册"]);
  (4, ["8年级上册"]);
  (5, ["8年级上册"; "8年级下册"]);
  (6, ["8年级下册"]);
  (7, ["9年级"]);
  (8, ["9年级"]);
  (9, ["9年级"])
]%Z%string.

Definition floor_grades (floor : Z) : list string :=
  default ["7年级上册"%string]
          (snd <$> List.find (λ kv, (kv.1 =? floor)%Z) floor_grade_map).

(** [LIMIT n]: refused for a negative [n]. *)
Definition limit_rows {A} (n : Z) (rows : list A) : option (list A) :=
  if (n <? 0)%Z then None else Some (take (Z.to_nat n) rows).

(** The bindings of [(w:Word)-[:BELONGS_TO]->(g:Grade)] that pass WHERE. *)
Definition floor_matches (grades : list string) (g : Graph) : list (Node * Node) :=
  e ← rels g;
  if bool_decide (rtype e = BELONGS_TO) then
    w ← List.filter (λ n, has_label Word n && bool_decide (nid n = rsrc e)) (nodes g);
    gr ← List.filter (λ n, has_label Grade n && bool_decide (nid n = rdst e)) (nodes g);
    if passes (cy_and (cy_in (prop gr "name") (VStr <$> grades))
                      (cy_eq (prop w "is_phrase") (VBool false)))
    then [(w, gr)] else []
  else [].

Definition floor_row (m : Node * Node) : Row := [
  ("word", prop m.1 "word");
  ("phonetic", prop m.1 "phonetic");
  ("definition", prop m.1 "definition");
  ("pos", prop m.1 "pos");
  ("grade", prop m.2 "name")
]%string.

Definition words_for_floor_query (grades : list string) (limit : Z)
    : Statement (list Row) := λ _ g,
  rows ← limit_rows limit (rand_order _ (floor_row <$> floor_matches grades g));
  Some (rows, g).

(** [WordGame.get_words_for_floor]. *)
Definition get_words_for_floor (floor : Z) (limit : Z) : Py (list Row) :=
  let grades := floor_grades floor in
  let* session := get_session in
  if session then
    let* result := session_run (words_for_floor_query grades limit) in
    ret result
  else ret [].

(** [RETURN DISTINCT w.definition] over the words that pass WHERE. *)
Definition distinct_definitions (correct_def : string) (g : Graph) : list Value :=
  remove_dups
    ((λ w, prop w "definition") <$>
     List.filter (λ w, has_label Word w &&
                       passes (cy_and (cy_neq (prop w "definition") (VStr correct_def))
                                      (cy_is_not_null (prop w "definition"))))
                 (nodes g)).

Definition random_definitions_query (correct_def : string) (count : Z)
    : Statement (list Value) := λ _ g,
  rows ← limit_rows count (rand_order _ (distinct_definitions correct_def g));
  Some (rows, g).

(** [WordGame.get_random_definitions]. *)
Definition get_random_definitions (correct_def : string) (count : Z)
    : Py (list Value) :=
  let* session := get_session in
  if session then
    let* result := session_run (random_definitions_query correct_def count) in
    ret result
  else ret [].

End queries.

(** [WordGame.get_words_by_root]. *)
Definition words_by_root_query (root : string) : Statement (list Row) := λ _ g,
  Some (e ← rels g;
        if bool_decide (rtype e = HAS_ROOT) then
          w ← List.filter (λ n, has_label Word n && bool_decide (nid n = rsrc e)) (nodes g);
          r ← List.filter (λ n, node_matches Root "name" (VStr root) n
                                && bool_decide (nid n = rdst e)) (nodes g);
          [[("word", prop w "word"); ("definition", prop w "definition");
            ("phonetic", prop w "phonetic")]%string]
        else [],
        g).

Definition get_words_by_root (root : string) : Py (list Row) :=
  let* session := get_session in
  if session then
    let* result := session_run (words_by_root_query root) in
    ret result
  else ret [].

(** ** User records *)

Definition user_row (u : Node) : Row := [
  ("user_id", prop u "id");
  ("total_questions", prop u "total_questions");
  ("correct_answers", prop u "correct_answers");
  ("score", prop u "score");
  ("current_floor", prop u "current_floor");
  ("mastered_count", prop u "mastered_count");
  ("wrong_count", prop u "wrong_count");
  ("last_active", prop u "last_active")
]%string.

(** A Python dict as the pairs it holds: the value under a key, if any. *)
Fixpoint dict_lookup (d : Row) (k : string) : option Value :=
  match d with
  | [] => None
  | (k', v) :: d' => if String.eqb k' k then Some v else dict_lookup d' k
  end.

(** [record.get(k, d)]. *)
Definition dict_get (d : Row) (k : string) (dflt : Value) : Value :=
  default dflt (dict_lookup d k).

(** [WordGame.save_user_record]. *)
Definition save_user_record_query (user_id : string) (record : Row)
    : Statement unit := λ now g,
  Some (tt, merge_set User "id" (VStr user_id) [
              ("last_active", VTime now);
              ("total_questions", dict_get record "total_questions" (VInt 0));
              ("correct_answers", dict_get record "correct_answers" (VInt 0));
              ("score", dict_get record "score" (VInt 0));
              ("current_floor", dict_get record "current_floor" (VInt 1));
              ("mastered_count", dict_get record "mastered_count" (VInt 0));
              ("wrong_count", dict_get record "wrong_count" (VInt 0))
            ]%string g).

Definition save_user_record (user_id : string) (record : Row) : Py unit :=
  let* session := get_session in
  if session then
    let* _ := session_run (save_user_record_query user_id record) in
    ret tt
  else ret tt.

(** [WordGame.get_user_by_id]; [single()] is the first record, or [None]
    when there is none. *)
Definition user_by_id_query (user_id : string) : Statement (list Row) := λ _ g,
  Some (user_row <$> match_nodes User "id" (VStr user_id) g, g).

Definition get_user_by_id (user_id : string) : Py (option Row) :=
  let* session := get_session in
  if session then
    let* result := session_run (user_by_id_query user_id) in
    match head result with
    | Some r => ret (Some r)
    | None => ret None
    end
  else ret None.

(** [WordGame.delete_user]: a plain [DELETE], which the store refuses at
    commit when a relationship is left on a node it deletes.  The result
    is not read, so [except] sees a failure to send the statement only. *)
Definition delete_user_query (user_id : string) : Statement unit := λ _ g,
  g' ← delete_nodes (node_matches User "id" (VStr user_id)) g;
  Some (tt, g').

Definition delete_user (user_id : string) : Py bool :=
  let* session := get_session in
  if session then
    try_except
      (let* _ := session_run_unread (delete_user_query user_id) in ret true)
      (ret false)
  else ret false.

(** [WordGame.delete_all_users]. *)
Definition delete_all_users_query : Statement unit := λ _ g,
  g' ← delete_nodes (has_label User) g;
  Some (tt, g').

Definition delete_all_users : Py bool :=
  let* session := get_session in
  if session then
    try_except
      (let* _ := session_run_unread delete_all_users_query in ret true)
      (ret false)
  else ret false.

(** The SET list of [reset_user_data]. *)
Definition reset_columns (now : nat) : list (string * Value) := [
  ("total_questions", VInt 0);
  ("correct_answers", VInt 0);
  ("score", VInt 0);
  ("current_floor", VInt 1);
  ("mastered_count", VInt 0);
  ("wrong_count", VInt 0);
  ("last_active", VTime now)
]%string.

(** [MATCH (u:l {k: v}) SET ...]: the bound nodes are updated, none is
    created. *)
Definition match_set (l : Label) (k : string) (v : Value)
    (kvs : list (string * Value)) (g : Graph) : Graph :=
  mkGraph ((λ n, if node_matches l k v n then upd_props kvs n else n) <$> nodes g)
          (rels g).

(** [WordGame.reset_user_data]. *)
Definition reset_user_data_query (user_id : string) : Statement unit := λ now g,
  Some (tt, match_set User "id" (VStr user_id) (reset_columns now) g).

Definition reset_user_data (user_id : string) : Py bool :=
  let* session := get_session in
  if session then
    try_except
      (let* _ := session_run (reset_user_data_query user_id) in ret true)
      (ret false)
  else ret false.

(** [WordGame.set_parent_password]. *)
Definition set_parent_password_query (user_id password : string)
    : Statement unit := λ _ g,
  Some (tt, merge_set User "id" (VStr user_id)
                      [("parent_password", VStr password)]%string g).

Definition set_parent_password (user_id password : string) : Py bool :=
  let* session := get_session in
  if session then
    try_except
      (let* _ := session_run (set_parent_password_query user_id password) in ret true)
      (ret false)
  else ret false.

(** [WordGame.get_parent_password]: [None] stands for Python's [None]. *)
Definition parent_password_query (user_id : string) : Statement (list Row) := λ _ g,
  Some ((λ u, [("password", prop u "parent_password")]%string)
          <$> match_nodes User "id" (VStr user_id) g, g).

Definition get_parent_password (user_id : string) : Py (option Value) :=
  let* session := get_session in
  if session then
    let* result := session_run (parent_password_query user_id) in
    match head result with
    | Some r =>
      if neo4j_import.truthy (neo4j_import.field r "password")
      then ret (Some (neo4j_import.field r "password"))
      else ret None
    | None => ret None
    end
  else ret None.

(** ** Parent login *)

(** What [render_parent_login] does with a submitted form. *)
Inductive login_result :=
  | AskStudentId                 (** "请输入学生姓名/学号" *)
  | LoggedIn (student_id : string)
  | WrongStudentPassword         (** "密码错误！请使用教师为该学生设置的家长密码" *)
  | WrongPassword.               (** "密码错误！" *)

Definition option_truthy (o : option Value) : bool :=
  match o with
  | Some v => neo4j_import.truthy v
  | None => false
  end.

Definition render_parent_login (student_id password : string) : Py login_result :=
  if negb (neo4j_import.truthy (VStr student_id)) then ret AskStudentId
  else
    let* student_password := get_parent_password student_id in
    if option_truthy student_password then
      if bool_decide (Some (VStr password) = student_password)
      then ret (LoggedIn student_id)
      else ret WrongStudentPassword
    else
      if bool_decide (password = admin_password "parent")
      then ret (LoggedIn student_id)
      else ret WrongPassword.

(** ** Prizes *)

(** [prize[k]]. *)
Definition subscript (d : Row) (k : string) : Py Value :=
  match dict_lookup d k with
  | Some v => ret v
  | None => raise (KeyError k)
  end.

(** [MATCH (p:Prize {type: $prize_type}) DELETE p]. *)
Definition delete_prizes_query (prize_type : string) : Statement unit := λ _ g,
  g' ← delete_nodes (node_matches Prize "type" (VStr prize_type)) g;
  Some (tt, g').

(** [CREATE (p:Prize {name: ..., description: ..., weight: ..., type: ...})]:
    a property given as null is left out. *)
Definition prize_props (name description weight : Value) (prize_type : string)
    : gmap string Value :=
  set_props [("name", name); ("description", description); ("weight", weight);
             ("type", VStr prize_type)]%string ∅.

Definition create_prize (name description weight : Value) (prize_type : string)
    (g : Graph) : Graph :=
  mkGraph (nodes g ++
           [mkNode (fresh_id g) Prize (prize_props name description weight prize_type)])
          (rels g).

Definition create_prize_query (name description weight : Value)
    (prize_type : string) : Statement unit := λ _ g,
  Some (tt, create_prize name description weight prize_type g).

Fixpoint create_prizes (prizes : list Row) (prize_type : string) : Py unit :=
  match prizes with
  | [] => ret tt
  | prize :: rest =>
    let* name := subscript prize "name" in
    let* description := subscript prize "description" in
    let* weight := subscript prize "weight" in
    let* _ := session_run (create_prize_query name description weight prize_type) in
    create_prizes rest prize_type
  end.

(** [save_custom_prizes]. *)
Definition save_custom_prizes (prizes : list Row) (prize_type : string) : Py unit :=
  let* session := get_session in
  if session then
    let* _ := session_run (delete_prizes_query prize_type) in
    create_prizes prizes prize_type
  else ret tt.

(** ** Worlds in which the store answers *)

(** The link never fails, and a driver is there or can be made. *)
Definition serving (w : World) : Prop :=
  link w = None ∧ (driver w = true ∨ (env_ok w = true ∧ uri_ok w = true)).

(** The world [connect] leaves behind when the store answers: the driver
    is set, and the check [RETURN 1] took one tick when it had to run. *)
Definition connected (w : World) : World :=
  if driver w then w
  else mkWorld (store w) (link w) (S (clock w)) (env_ok w) (uri_ok w) true.

(** The world after one more statement that leaves the store as [g]. *)
Definition after_statement (g : Graph) (w : World) : World :=
  mkWorld g (pred <$> link w) (S (clock w)) (env_ok w) (uri_ok w) (driver w).

(** The record [single()] yields for [MATCH (u:User {id: $user_id})]. *)
Definition first_user (user_id : string) (g : Graph) : option Node :=
  head (match_nodes User "id" (VStr user_id) g).

(** No relationship is on a node that [sel] selects.  The statements of
    this program put relationships on word nodes only, so the user nodes
    of a store it has built are free of them. *)
Definition unattached (sel : Node → bool) (g : Graph) : Prop :=
  ∀ r n, r ∈ rels g → n ∈ nodes g → sel n = true → touches (nid n) r = false.

(** The prizes of one type that the store holds. *)
Definition prizes_of_type (prize_type : string) (g : Graph) : list Node :=
  match_nodes Prize "type" (VStr prize_type) g.

(** A prize dict that has the three keys [save_custom_prizes] reads. *)
Definition well_keyed (prize : Row) : Prop :=
  is_Some (dict_lookup prize "name") ∧ is_Some (dict_lookup prize "description")
  ∧ is_Some (dict_lookup prize "weight").

(** The properties the CREATE statement gives the node of a prize dict. *)
Definition props_of_prize (prize_type : string) (prize : Row) : gmap string Value :=
  prize_props (dict_get prize "name" VNull) (dict_get prize "description" VNull)
              (dict_get prize "weight" VNull) prize_type.

(** The store after the CREATE statements of a list of prize dicts. *)
Definition add_prizes (prizes : list Row) (prize_type : string) (g : Graph) : Graph :=
  foldl (λ g prize,
           create_prize (dict_get prize "name" VNull) (dict_get prize "description" VNull)
                        (dict_get prize "weight" VNull) prize_type g)
        g prizes.

End app.

(* ===================================================================== *)
(** * What the loaded graph is read for *)
(* ===================================================================== *)

Module graph_views.
Import Cypher.

(** [(w)-[:HAS_ROOT]->(r)] holds between the two identities. *)
Definition has_root_edge (w r : nat) (g : Graph) : bool :=
  existsb (λ e, bool_decide (rtype e = HAS_ROOT) && bool_decide (rsrc e = w)
                && bool_decide (rdst e = r)) (rels g).

(** The member words of a root: the Word nodes with a HAS_ROOT
    relationship to it. *)
Definition members (r : Node) (g : Graph) : list Node :=
  List.filter (λ w, has_label Word w && has_root_edge (nid w) (nid r) g) (nodes g).

(** The SAME_ROOT relationships of a root: those that carry its name. *)
Definition same_root_edges (r : Node) (g : Graph) : list Rel :=
  List.filter (λ e, bool_decide (rtype e = SAME_ROOT)
                    && bool_decide (rprop e "root" = prop r "name")) (rels g).

(** The pairs [(a, b)] with [a < b] out of a list of identities. *)
Definition ordered_pairs (ids : list nat) : list (nat * nat) :=
  a ← ids; b ← ids; if bool_decide (a < b) then [(a, b)] else [].

Definition same_root_edge (r : Node) (p : nat * nat) : Rel :=
  mkRel SAME_ROOT p.1 p.2 {[ "root" := prop r "name" ]}.

(** A relationship between [a] and [b], in either direction. *)
Definition joins (a b : nat) (e : Rel) : bool :=
  (bool_decide (rsrc e = a) && bool_decide (rdst e = b))
  || (bool_decide (rsrc e = b) && bool_decide (rdst e = a)).

(** Node identities are not shared. *)
Definition ids_unique (g : Graph) : Prop := NoDup (nid <$> nodes g).

(** Every Root node has a name, and no two have the same. *)
Definition roots_keyed (g : Graph) : Prop :=
  let rs := List.filter (has_label Root) (nodes g) in
  (∀ r, r ∈ rs → prop r "name" ≠ VNull) ∧
  (∀ r1 r2, r1 ∈ rs → r2 ∈ rs → prop r1 "name" = prop r2 "name" → r1 = r2).

Definition no_same_root (g : Graph) : Prop :=
  ∀ e, e ∈ rels g → rtype e ≠ SAME_ROOT.

(** What the load relies on and keeps. *)
Definition loadable (g : Graph) : Prop :=
  ids_unique g ∧ roots_keyed g ∧ no_same_root g.

(** What one row of [MERGE (x:l {k: v}) SET ...] does to a node that is
    there already, and what a list of rows does to it. *)
Definition step_row (l : Label) (k : string) (v : Value)
    (kvs : list (string * Value)) (n : Node) : Node :=
  if node_matches l k v n then upd_props kvs n else n.

Definition apply_rows {A} (l : Label) (k : string) (key : A → Value)
    (cols : A → list (string * Value)) (rows : list A) (n : Node) : Node :=
  foldl (λ n row, step_row l k (key row) (cols row) n) n rows.

(** A store on which a list of upsert rows has nothing left to do: each
    row finds its node, and no node is changed by the rows. *)
Definition settled {A} (l : Label) (k : string) (key : A → Value)
    (cols : A → list (string * Value)) (rows : list A) (g : Graph) : Prop :=
  (∀ row, row ∈ rows → existsb (node_matches l k (key row)) (nodes g) = true) ∧
  (∀ n, n ∈ nodes g → apply_rows l k key cols rows n = n).

(** A relationship request that finds its relationship. *)
Definition present (q : RelReq) (g : Graph) : Prop :=
  existsb (rel_matches q) (rels g) = true.

(** From [g] to [g'] the nodes with label [l] are the same, or the
    relationships are the same with some more at the end. *)
Definition keeps (l : Label) (g g' : Graph) : Prop :=
  List.filter (has_label l) (nodes g') = List.filter (has_label l) (nodes g).

Definition grows (g g' : Graph) : Prop := ∃ new, rels g' = rels g ++ new.

(** Every relationship starts at a node of the store, as in any property
    graph. *)
Definition no_dangling (g : Graph) : Prop :=
  ∀ e, e ∈ rels g → rsrc e ∈ nid <$> nodes g.

End graph_views.

(* ===================================================================== *)
(** * Sample stores and worlds *)
(* ===================================================================== *)

Module samples.
Import Cypher app.

(** A learner with a score of 500 whose parent password was saved empty. *)
Definition amy : Node :=
  mkNode 1 User {[ "id" := VStr "amy"; "total_questions" := VInt 60;
                   "correct_answers" := VInt 50; "score" := VInt 500;
                   "current_floor" := VInt 4; "parent_password" := VStr "" ]}.

Definition grade_7a : Node :=
  mkNode 2 Grade {[ "name" := VStr "7年级上册"; "level" := VInt 1 ]}.

Definition grade_7b : Node :=
  mkNode 3 Grade {[ "name" := VStr "7年级下册"; "level" := VInt 2 ]}.

Definition grade_9 : Node :=
  mkNode 4 Grade {[ "name" := VStr "9年级"; "level" := VInt 5 ]}.

Definition apple : Node :=
  mkNode 5 Word {[ "word" := VStr "apple"; "definition" := VStr "苹果";
                   "is_phrase" := VBool false ]}.

Definition phrase_entry : Node :=
  mkNode 6 Word {[ "word" := VStr "give up"; "definition" := VStr "放弃";
                   "is_phrase" := VBool true ]}.

(** A word whose line had no page marker: the parser left its definition
    empty, and the loader stored the empty string. *)
Definition banana : Node :=
  mkNode 7 Word {[ "word" := VStr "banana"; "definition" := VStr "";
                   "is_phrase" := VBool false ]}.

Definition respect : Node :=
  mkNode 8 Word {[ "word" := VStr "respect"; "definition" := VStr "尊重";
                   "is_phrase" := VBool false ]}.

Definition classroom : Graph :=
  mkGraph [amy; grade_7a; grade_7b; grade_9; apple; phrase_entry; banana; respect]
          [mkRel BELONGS_TO 5 2 ∅; mkRel BELONGS_TO 6 2 ∅;
           mkRel BELONGS_TO 7 3 ∅; mkRel BELONGS_TO 8 4 ∅].

(** Two prizes a parent configured earlier, next to a teacher's prize. *)
Definition prize_shelf : Graph :=
  mkGraph [mkNode 1 Prize {[ "name" := VStr "sticker"; "description" := VStr "one sticker";
                             "weight" := VInt 30; "type" := VStr "parent" ]};
           mkNode 2 Prize {[ "name" := VStr "badge"; "description" := VStr "class badge";
                             "weight" := VInt 10; "type" := VStr "teacher" ]};
           mkNode 3 Prize {[ "name" := VStr "cinema"; "description" := VStr "film night";
                             "weight" := VInt 5; "type" := VStr "parent" ]}]
          [].

(** The list a parent saves in their place. *)
Definition new_prizes : list Row := [
  [("name", VStr "zoo"); ("description", VStr "a day at the zoo"); ("weight", VInt 20)];
  [("name", VStr "cake"); ("description", VStr "a slice of cake"); ("weight", VInt 80)]
]%string.

(** The names of the prizes of one type, as the store holds them. *)
Definition prize_names (prize_type : string) (g : Graph) : list Value :=
  (λ p, prop p "name") <$> prizes_of_type prize_type g.

(** The store answers, and nothing is connected yet. *)
Definition online (g : Graph) : World := mkWorld g None 0 true true false.

(** The store is out of reach from the first statement on. *)
Definition offline (g : Graph) : World := mkWorld g (Some 0) 0 true true false.

(** Two orders [ORDER BY rand()] may leave the rows in. *)
Definition as_found : ∀ A : Type, list A → list A := λ _ l, l.

Definition backwards : ∀ A : Type, list A → list A := λ _ l, reverse l.

(** Parsed entries, as [_parse_line] leaves them: no root yet. *)
Definition entry (text meaning grade : string) (level : Z) : word_parser.Word :=
  word_parser.mkWord text "" "v." meaning "12" grade level false "".

Definition act_7b : word_parser.Word := entry "act" "行动" "7年级下册" 1.
Definition action_8a : word_parser.Word := entry "action" "行为" "8年级上册" 2.
Definition active_8a : word_parser.Word := entry "active" "积极的" "8年级上册" 2.
Definition act_8a : word_parser.Word := entry "act" "表演" "8年级上册" 2.
Definition desk_7b : word_parser.Word := entry "desk" "书桌" "7年级下册" 1.

(** Four entries after root identification, and what [main] makes of them
    when it starts from the store [classroom]. *)
Definition four_entries : list word_parser.Word :=
  word_parser._identify_roots word_parser.ascii_lower
    [act_7b; action_8a; active_8a; desk_7b].

Definition loaded : Graph :=
  default empty_graph (neo4j_import.main four_entries classroom).

Definition act_root : Node := mkNode 6 Root {[ "name" := VStr "act" ]}.

End samples.

(* ===================================================================== *)
(** * Facts about the query service *)
(* ===================================================================== *)

Section app_facts.
Import Cypher app.

Lemma serving_connected w : serving w → serving (connected w).
Proof.
  intros [Hl Hd]. unfold connected. destruct (driver w) eqn:E.
  - split; [done | by left].
  - split; [done | by left].
Qed.

Lemma store_connected w : store (connected w) = store w.
Proof. unfold connected. by destruct (driver w). Qed.

Lemma driver_connected w : driver (connected w) = true.
Proof. unfold connected. by destruct (driver w) eqn:E. Qed.

Lemma link_connected w : link (connected w) = link w.
Proof. unfold connected. by destruct (driver w). Qed.

(** With the store answering, [get_session] hands out a session. *)
Lemma get_session_serving w :
  serving w → get_session w = (Returned true, connected w).
Proof.
  intros [Hl Hd]. unfold get_session, bind, connect, connected.
  destruct (driver w) eqn:Ed; [done |].
  destruct Hd as [? | [He Hu]]; [done |].
  rewrite He, Hu. unfold try_except, bind, set_driver, session_run, ret. simpl.
  rewrite Hl. simpl. by rewrite He, Hu.
Qed.

(** A statement run over a link that never fails. *)
Lemma session_run_serving {R} (q : Statement R) w :
  link w = None →
  session_run q w =
    match q (clock w) (store w) with
    | None => (Raised ClientError, after_statement (store w) w)
    | Some (r, g') => (Returned r, after_statement g' w)
    end.
Proof.
  intros Hl. unfold session_run, after_statement. rewrite Hl. simpl.
  by destruct (q (clock w) (store w)) as [[r g'] |].
Qed.

(** On a statement the store accepts, leaving the result unread makes no
    difference to the store or to the outcome. *)
Lemma session_run_unread_accepted (q : Statement unit) w g' :
  q (clock w) (store w) = Some (tt, g') → session_run_unread q w = session_run q w.
Proof.
  intros Hq. unfold session_run_unread, session_run. rewrite Hq.
  by destruct (link w) as [[| j] |].
Qed.

End app_facts.

Section parent_password.
Import Cypher app.

Lemma head_fmap_list {A B} (f : A → B) (l : list A) : head (f <$> l) = f <$> head l.
Proof. by destruct l. Qed.

(** What [get_parent_password] returns when the store answers. *)
Lemma get_parent_password_serving user_id w :
  serving w →
  get_parent_password user_id w =
    (Returned (match first_user user_id (store w) with
               | Some u => if neo4j_import.truthy (prop u "parent_password")
                           then Some (prop u "parent_password") else None
               | None => None
               end),
     after_statement (store w) (connected w)).
Proof.
  intros Hs. unfold get_parent_password, bind.
  rewrite (get_session_serving w Hs).
  rewrite session_run_serving by (rewrite link_connected; apply Hs).
  unfold parent_password_query. rewrite store_connected, head_fmap_list.
  unfold first_user. destruct (head _) as [u|]; simpl; [|done].
  by destruct (neo4j_import.truthy _).
Qed.

(** C10. With the store answering, [get_parent_password] returns [None]
    both when no user node has the id and when the stored
    [parent_password] is the empty string; the parent login of that
    student then checks the password against the built-in default,
    ["admin666"]. *)
Theorem parent_password_empty_is_none (user_id password : string) (w : World) :
  serving w →
  (first_user user_id (store w) = None ∨
   ∃ u, first_user user_id (store w) = Some u ∧ prop u "parent_password" = VStr "") →
  (get_parent_password user_id w).1 = Returned None ∧
  (user_id ≠ ""%string →
   (render_parent_login user_id password w).1 =
     Returned (if bool_decide (password = "admin666"%string)
               then LoggedIn user_id else WrongPassword)).
Proof.
  intros Hs Hu.
  assert (Hg : get_parent_password user_id w =
               (Returned None, after_statement (store w) (connected w))).
  { rewrite get_parent_password_serving by done.
    destruct Hu as [-> | (u & -> & ->)]; done. }
  split; [by rewrite Hg |].
  intros Hne. unfold render_parent_login.
  assert (neo4j_import.truthy (VStr user_id) = true) as ->.
  { simpl. by destruct (String.eqb_spec user_id ""). }
  simpl. unfold bind. rewrite Hg. simpl.
  unfold admin_password. simpl.
  by destruct (bool_decide _).
Qed.

End parent_password.

(* ===================================================================== *)
(** * Facts about properties, patterns and MERGE *)
(* ===================================================================== *)

Section cypher_facts.
Import Cypher.

Lemma lookup_set_prop k v (m : gmap string Value) j :
  set_prop k v m !! j =
    if decide (k = j) then (if decide (v = VNull) then None else Some v) else m !! j.
Proof.
  unfold set_prop. destruct (decide (k = j)) as [-> | Hne].
  - destruct v; simpl; rewrite ?lookup_delete_eq, ?lookup_insert_eq; done.
  - destruct v; simpl; rewrite ?lookup_delete_ne, ?lookup_insert_ne; done.
Qed.

(** A SET list leaves the properties it does not name alone. *)
Lemma lookup_set_props_notin kvs (m : gmap string Value) j :
  j ∉ kvs.*1 → set_props kvs m !! j = m !! j.
Proof.
  unfold set_props. revert m. induction kvs as [| [k v] kvs IH]; intros m Hj; [done |].
  simpl in *. apply not_elem_of_cons in Hj as [Hne Hj].
  rewrite IH by done.
  rewrite lookup_set_prop. destruct (decide (k = j)); [by subst | done].
Qed.

Lemma prop_upd_props_notin kvs n j :
  j ∉ kvs.*1 → prop (upd_props kvs n) j = prop n j.
Proof. intros Hj. unfold prop, upd_props. simpl. by rewrite lookup_set_props_notin. Qed.

Lemma node_matches_upd_props l k v kvs n :
  k ∉ kvs.*1 → node_matches l k v (upd_props kvs n) = node_matches l k v n.
Proof. intros Hk. unfold node_matches. by rewrite prop_upd_props_notin. Qed.

Lemma filter_fmap_preserve {A} (P : A → bool) (f : A → A) (l : list A) :
  (∀ x, P (f x) = P x) → List.filter P (f <$> l) = f <$> List.filter P l.
Proof.
  intros Hf. induction l as [| x l IH]; [done |].
  csimpl. rewrite Hf. destruct (P x); csimpl; by rewrite IH.
Qed.

Lemma node_matches_label l k v n : node_matches l k v n = true → nlabel n = l.
Proof.
  unfold node_matches. intros H. apply andb_true_iff in H as [H _].
  by apply bool_decide_eq_true in H.
Qed.

Lemma node_matches_prop l k v n : node_matches l k v n = true → prop n k = v.
Proof.
  unfold node_matches, passes, cy_eq. intros H. apply andb_true_iff in H as [_ H].
  apply bool_decide_eq_true in H.
  destruct (prop n k), v; try discriminate;
    (assert (H' := f_equal (default false) H); simpl in H';
     by apply bool_decide_eq_true in H').
Qed.

End cypher_facts.

Section reset_facts.
Import Cypher app.

Lemma reset_user_data_serving user_id w :
  serving w →
  reset_user_data user_id w =
    (Returned true,
     after_statement
       (match_set User "id" (VStr user_id) (reset_columns (clock (connected w))) (store w))
       (connected w)).
Proof.
  intros Hs. unfold reset_user_data, bind.
  rewrite (get_session_serving w Hs). unfold try_except, bind.
  rewrite session_run_serving by (rewrite link_connected; apply Hs).
  unfold reset_user_data_query. by rewrite store_connected.
Qed.

Lemma get_user_by_id_serving user_id w :
  serving w →
  get_user_by_id user_id w =
    (Returned (user_row <$> first_user user_id (store w)),
     after_statement (store w) (connected w)).
Proof.
  intros Hs. unfold get_user_by_id, bind.
  rewrite (get_session_serving w Hs).
  rewrite session_run_serving by (rewrite link_connected; apply Hs).
  unfold user_by_id_query. rewrite store_connected, head_fmap_list.
  unfold first_user. by destruct (head _).
Qed.

Lemma serving_after_statement g w : serving w → serving (after_statement g w).
Proof. intros [Hl Hd]. split; simpl; [by rewrite Hl | done]. Qed.

Lemma reset_not_key now : "id"%string ∉ (reset_columns now).*1.
Proof.
  simpl. repeat (apply not_elem_of_cons; split; [done |]). apply not_elem_of_nil.
Qed.

Lemma first_user_match_set user_id kvs g :
  "id"%string ∉ kvs.*1 →
  first_user user_id (match_set User "id" (VStr user_id) kvs g)
  = upd_props kvs <$> first_user user_id g.
Proof.
  intros Hk. unfold first_user, match_nodes, match_set. simpl.
  rewrite filter_fmap_preserve.
  - rewrite head_fmap_list.
    destruct (List.filter _ (nodes g)) as [| u l] eqn:E; [done |]. simpl.
    assert (u ∈ List.filter (node_matches User "id" (VStr user_id)) (nodes g)) as Hin
      by (rewrite E; left).
    apply list_elem_of_In, filter_In in Hin as [_ ->]. done.
  - intros n. destruct (node_matches User "id" (VStr user_id) n) eqn:E.
    + by rewrite node_matches_upd_props, E.
    + done.
Qed.

End reset_facts.

Section reset_claim.
Import Cypher app.

(** Reading a property off a node that a SET list has just written. *)
Ltac read_prop :=
  unfold prop, upd_props, set_props; simpl;
  repeat first [rewrite lookup_insert_eq | rewrite lookup_insert_ne by done];
  done.

Lemma nodes_match_set l k v kvs g :
  nid <$> nodes (match_set l k v kvs g) = nid <$> nodes g.
Proof.
  unfold match_set. simpl. rewrite <- list_fmap_compose.
  apply list_fmap_ext. intros _ n _. simpl. by destruct (node_matches l k v n).
Qed.

(** C8. With the store answering, [reset_user_data] on an existing user
    returns [True]; the user node is still there and [get_user_by_id]
    still finds it; its six counters read 0, 0, 0, 0, 0 and floor 1; every
    property other than the counters and [last_active] (so [id] and
    [parent_password]) is as before; no node or relationship is added or
    removed and the other nodes are untouched. *)
Theorem reset_user_data_keeps_node (user_id : string) (w : World) (u : Node) :
  serving w →
  first_user user_id (store w) = Some u →
  let r := reset_user_data user_id w in
  r.1 = Returned true ∧
  (∃ u', first_user user_id (store r.2) = Some u' ∧
     nid u' = nid u ∧ nlabel u' = nlabel u ∧
     prop u' "total_questions" = VInt 0 ∧ prop u' "correct_answers" = VInt 0 ∧
     prop u' "score" = VInt 0 ∧ prop u' "mastered_count" = VInt 0 ∧
     prop u' "wrong_count" = VInt 0 ∧ prop u' "current_floor" = VInt 1 ∧
     (∀ k : string,
        k ∉ ["total_questions"; "correct_answers"; "score"; "current_floor";
             "mastered_count"; "wrong_count"; "last_active"]%string →
        nprops u' !! k = nprops u !! k) ∧
     prop u' "id" = VStr user_id ∧
     prop u' "parent_password" = prop u "parent_password") ∧
  (∃ row, (get_user_by_id user_id r.2).1 = Returned (Some row) ∧
     neo4j_import.field row "user_id" = VStr user_id ∧
     neo4j_import.field row "score" = VInt 0 ∧
     neo4j_import.field row "current_floor" = VInt 1 ∧
     neo4j_import.field row "total_questions" = VInt 0 ∧
     neo4j_import.field row "correct_answers" = VInt 0 ∧
     neo4j_import.field row "mastered_count" = VInt 0 ∧
     neo4j_import.field row "wrong_count" = VInt 0) ∧
  nid <$> nodes (store r.2) = nid <$> nodes (store w) ∧
  rels (store r.2) = rels (store w) ∧
  (∀ n, n ∈ nodes (store w) → node_matches User "id" (VStr user_id) n = false →
        n ∈ nodes (store r.2)).
Proof.
  intros Hs Hu r. subst r. rewrite reset_user_data_serving by done.
  cbn [fst snd after_statement store].
  set (now := clock (connected w)).
  assert (Hid : prop u "id" = VStr user_id).
  { unfold first_user, match_nodes in Hu.
    destruct (List.filter _ _) as [| u0 l] eqn:E; [done |]. injection Hu as ->.
    assert (u ∈ u :: l) as Hin by left. rewrite <- E in Hin.
    apply list_elem_of_In, filter_In in Hin as [_ Hm].
    by apply node_matches_prop in Hm. }
  assert (Hfu : first_user user_id
                  (match_set User "id" (VStr user_id) (reset_columns now) (store w))
                = Some (upd_props (reset_columns now) u)).
  { rewrite first_user_match_set by apply reset_not_key. by rewrite Hu. }
  assert (Hframe : ∀ k : string,
            k ∉ ["total_questions"; "correct_answers"; "score"; "current_floor";
                 "mastered_count"; "wrong_count"; "last_active"]%string →
            nprops (upd_props (reset_columns now) u) !! k = nprops u !! k).
  { intros k Hk. unfold upd_props. cbn [nprops]. by apply lookup_set_props_notin. }
  split; [done |]. split; [| split; [| split; [| split]]].
  - exists (upd_props (reset_columns now) u).
    split; [done |]. split; [done |]. split; [done |].
    do 6 (split; [read_prop |]). split; [done |]. split.
    + rewrite prop_upd_props_notin by apply reset_not_key. done.
    + unfold prop. rewrite Hframe; [done |].
      repeat (apply not_elem_of_cons; split; [done |]). apply not_elem_of_nil.
  - eexists. split.
    + rewrite get_user_by_id_serving.
      * simpl. rewrite Hfu. reflexivity.
      * apply serving_after_statement, serving_connected, Hs.
    + cbn [neo4j_import.field user_row String.eqb Ascii.eqb Bool.eqb].
      rewrite prop_upd_props_notin by apply reset_not_key.
      split; [done |]. repeat (split; [read_prop |]). read_prop.
  - apply nodes_match_set.
  - done.
  - intros n Hn Hm. unfold match_set. simpl.
    apply list_elem_of_fmap. exists n. by rewrite Hm.
Qed.

End reset_claim.

Section floor_claim.
Import Cypher app.

(** [get_session] never raises and never touches the store. *)
Lemma get_session_total w :
  ∃ b w', get_session w = (Returned b, w') ∧ store w' = store w.
Proof.
  unfold get_session, bind, connect.
  destruct (driver w) eqn:Ed; [by eexists _, _ |].
  destruct (env_ok w) eqn:Ee; [| by eexists _, _].
  unfold try_except. destruct (uri_ok w) eqn:Eu; [| by eexists _, _].
  unfold bind, set_driver, session_run, return_1, ret. simpl.
  destruct (link w) as [[| n] |]; by eexists _, _.
Qed.

Lemma session_run_returned {R} (q : Statement R) w r w' :
  session_run q w = (Returned r, w') →
  ∃ g', q (clock w) (store w) = Some (r, g') ∧ store w' = g'.
Proof.
  unfold session_run.
  destruct (link w) as [[| n] |]; [done | |];
    (destruct (q (clock w) (store w)) as [[r0 g'] |]; [| done]);
    intros [= <- <-]; by exists g'.
Qed.

Lemma limit_rows_some {A} (n : Z) (rows out : list A) :
  limit_rows n rows = Some out → (0 ≤ n)%Z ∧ out = take (Z.to_nat n) rows.
Proof.
  unfold limit_rows. destruct (Z.ltb_spec n 0); [done |]. by intros [= <-].
Qed.

Variable rand_order : ∀ A : Type, list A → list A.




Hypothesis rand_order_perm : ∀ (A : Type) (l : list A), rand_order A l ≡ₚ l.


End floor_claim.

Section service_witnesses.
Import Cypher app samples.

Lemma serving_online g : serving (online g).
Proof. split; [reflexivity | right; split; reflexivity]. Defined.


Lemma parent_password_empty_is_none_witness :
  (get_parent_password "amy" (online classroom)).1 = Returned None ∧
  (render_parent_login "amy" "admin666" (online classroom)).1
    = Returned (LoggedIn "amy").
Proof.
  destruct (parent_password_empty_is_none "amy" "admin666" (online classroom))
    as [H1 H2].
  - apply serving_online.
  - right. exists amy. split; reflexivity.
  - split; [exact H1 |]. apply H2. discriminate.
Defined.

Lemma reset_user_data_keeps_node_witness :
  (reset_user_data "amy" (online classroom)).1 = Returned true ∧
  ∃ row, (get_user_by_id "amy" (reset_user_data "amy" (online classroom)).2).1
           = Returned (Some row) ∧
         neo4j_import.field row "score" = VInt 0 ∧
         neo4j_import.field row "current_floor" = VInt 1.
Proof.
  destruct (reset_user_data_keeps_node "amy" (online classroom) amy)
    as (H1 & _ & (row & Hrow & _ & Hs & Hf & _) & _).
  - apply serving_online.
  - reflexivity.
  - split; [exact H1 |]. exists row. split; [exact Hrow |]. split; [exact Hs | exact Hf].
Defined.



End service_witnesses.

Section distractor_claim.
Import Cypher app samples.

Variable rand_order : ∀ A : Type, list A → list A.

Lemma get_random_definitions_returned correct_def count w defs :
  (get_random_definitions rand_order correct_def count w).1 = Returned defs →
  defs = [] ∨
  ((0 ≤ count)%Z ∧
   defs = take (Z.to_nat count)
            (rand_order _ (distinct_definitions correct_def (store w)))).
Proof.
  unfold get_random_definitions, bind.
  destruct (get_session_total w) as (b & w' & -> & Hst).
  destruct b; [| intros [= <-]; by left].
  destruct (session_run _ w') as [[r | e] w''] eqn:E; [| done].
  simpl. intros [= <-]. right.
  apply session_run_returned in E as (g' & Hq & _).
  unfold random_definitions_query in Hq. rewrite Hst in Hq.
  destruct (limit_rows _ _) as [out |] eqn:El; [| done].
  simpl in Hq. injection Hq as <- _.
  by apply limit_rows_some in El.
Qed.

(** What WHERE lets through: a definition that is not null and differs
    from the correct one.  The empty string is such a definition. *)
Lemma elem_of_distinct_definitions correct_def g d :
  d ∈ distinct_definitions correct_def g ↔
  ∃ w, w ∈ nodes g ∧ nlabel w = Word ∧ prop w "definition" = d ∧
       d ≠ VNull ∧ d ≠ VStr correct_def.
Proof.
  unfold distinct_definitions. rewrite elem_of_remove_dups, list_elem_of_fmap.
  split.
  - intros (w & -> & Hw). exists w.
    apply list_elem_of_In, filter_In in Hw as [Hw Hp].
    apply list_elem_of_In in Hw.
    apply andb_true_iff in Hp as [Hl Hp].
    apply bool_decide_eq_true in Hl, Hp.
    repeat (split; [done |]).
    unfold cy_and, cy_neq, cy_is_not_null, cy_eq in Hp.
    destruct (prop w "definition") eqn:Ed; simpl in Hp; try done;
      (split; [done |]); try done.
    intros [= ->]. by rewrite bool_decide_eq_true_2 in Hp.
  - intros (w & Hw & Hl & <- & Hn & Hc). exists w. split; [done |].
    apply list_elem_of_In, filter_In. split; [by apply list_elem_of_In |].
    apply andb_true_iff. split; [by apply bool_decide_eq_true |].
    apply bool_decide_eq_true.
    unfold cy_and, cy_neq, cy_is_not_null, cy_eq.
    destruct (prop w "definition") eqn:Ed; simpl; try done.
    by rewrite bool_decide_eq_false_2.
Qed.

Hypothesis rand_order_perm : ∀ (A : Type) (l : list A), rand_order A l ≡ₚ l.

(** The part of the distractor contract the query keeps: at most [count]
    definitions, no two alike, none the correct one, none null. *)
Lemma get_random_definitions_sound correct_def count w defs :
  (0 ≤ count)%Z →
  (get_random_definitions rand_order correct_def count w).1 = Returned defs →
  (Z.of_nat (length defs) ≤ count)%Z ∧ NoDup defs ∧
  (VStr correct_def ∉ defs) ∧ (VNull ∉ defs).
Proof.
  intros Hc Hr. apply get_random_definitions_returned in Hr as [-> | [_ ->]].
  - split; [simpl; lia |]. split; [constructor |]. split; apply not_elem_of_nil.
  - split; [rewrite length_take; lia |].
    assert (Hsub : take (Z.to_nat count)
                     (rand_order Value (distinct_definitions correct_def (store w)))
                   ⊆+ distinct_definitions correct_def (store w)).
    { etrans; [apply submseteq_take |]. by rewrite rand_order_perm. }
    split; [| split].
    + eapply sublist_NoDup; [| apply sublist_take].
      rewrite rand_order_perm. apply NoDup_remove_dups.
    + intros Hin. apply (elem_of_submseteq _ _ _ Hin) in Hsub.
      apply elem_of_distinct_definitions in Hsub as (? & _ & _ & _ & _ & Hne). done.
    + intros Hin. apply (elem_of_submseteq _ _ _ Hin) in Hsub.
      apply elem_of_distinct_definitions in Hsub as (? & _ & _ & _ & Hne & _). done.
Qed.

End distractor_claim.

Section distractor_bug.
Import Cypher app samples.

(** C3, at the failing input.  The store holds a word whose definition
    is the empty string; asked for three distractors for "苹果", the query
    returns the empty string among them: WHERE tests the definition
    against null and against the correct one, and not against [''] (the
    loader's own [root_relation_query] tests [<> ''] next to
    [IS NOT NULL]). *)
Theorem get_random_definitions_returns_empty_string :
  (get_random_definitions backwards "苹果" 3 (online classroom)).1
    = Returned [VStr "尊重"; VStr ""; VStr "放弃"].
Proof. vm_compute. reflexivity. Qed.

End distractor_bug.

Section connectivity_bug.
Import Cypher app samples.

(** Once the singleton holds a driver, [get_session] hands out a session
    without asking the store. *)
Lemma get_session_cached w : driver w = true → get_session w = (Returned true, w).
Proof. intros Hd. unfold get_session, bind, connect. by rewrite Hd. Qed.

Lemma session_run_down {R} (q : Statement R) w :
  link w = Some 0 → session_run q w = (Raised ServiceUnavailable, w).
Proof. intros Hl. unfold session_run. by rewrite Hl. Qed.

(** A failed first connection still leaves the driver in the singleton:
    the assignment comes before the check. *)
Lemma connect_keeps_unverified_driver w :
  driver w = false → env_ok w = true → uri_ok w = true → link w = Some 0 →
  (connect w).1 = Returned false ∧ driver (connect w).2 = true.
Proof.
  intros Hd He Hu Hl. unfold connect. rewrite Hd, He, Hu.
  unfold try_except, bind, set_driver, session_run. simpl. by rewrite Hl.
Qed.

(** With a driver in the singleton and the store out of reach, the
    reading operations raise: none of them guards [session.run]. *)
Lemma reads_raise_when_down (rand_order : ∀ A : Type, list A → list A) w :
  driver w = true → link w = Some 0 →
  (∀ floor limit,
     (get_words_for_floor rand_order floor limit w).1 = Raised ServiceUnavailable) ∧
  (∀ correct_def count,
     (get_random_definitions rand_order correct_def count w).1
       = Raised ServiceUnavailable) ∧
  (∀ root, (get_words_by_root root w).1 = Raised ServiceUnavailable) ∧
  (∀ user_id, (get_user_by_id user_id w).1 = Raised ServiceUnavailable) ∧
  (∀ user_id, (get_parent_password user_id w).1 = Raised ServiceUnavailable).
Proof.
  intros Hd Hl.
  repeat split; intros;
    unfold get_words_for_floor, get_random_definitions, get_words_by_root,
           get_user_by_id, get_parent_password, bind;
    rewrite (get_session_cached w Hd); by rewrite session_run_down.
Qed.

(** The writing operations with a [try] do what the claim asks. *)
Lemma guarded_writes_return_false_when_down w :
  driver w = true → link w = Some 0 →
  (∀ user_id, (delete_user user_id w).1 = Returned false) ∧
  (delete_all_users w).1 = Returned false ∧
  (∀ user_id, (reset_user_data user_id w).1 = Returned false) ∧
  (∀ user_id password, (set_parent_password user_id password w).1 = Returned false).
Proof.
  intros Hd Hl.
  repeat split; intros;
    unfold delete_user, delete_all_users, reset_user_data, set_parent_password, bind;
    rewrite (get_session_cached w Hd); unfold try_except, bind;
    rewrite ?session_run_down by done; unfold session_run_unread;
    by rewrite ?Hl.
Qed.

(** C6, at the failing input.  The store is out of reach from the start.
    The first query returns the empty list, and leaves the unverified
    driver behind; the same query asked again raises, and so do the
    distractor query, the words-by-root query and the user lookup.  The
    same happens when the link goes down after a query that worked. *)
Theorem reads_propagate_connectivity_failure :
  let first := get_words_for_floor as_found 2 10 (offline classroom) in
  let worked := get_words_for_floor as_found 2 10
                  (mkWorld classroom (Some 2) 0 true true false) in
  first.1 = Returned [] ∧
  driver first.2 = true ∧
  (get_words_for_floor as_found 2 10 first.2).1 = Raised ServiceUnavailable ∧
  (get_random_definitions as_found "苹果" 3 first.2).1 = Raised ServiceUnavailable ∧
  (get_words_by_root "act" first.2).1 = Raised ServiceUnavailable ∧
  (get_user_by_id "amy" first.2).1 = Raised ServiceUnavailable ∧
  (∃ rows, worked.1 = Returned rows ∧ length rows = 2) ∧
  (get_words_for_floor as_found 2 10 worked.2).1 = Raised ServiceUnavailable.
Proof.
  vm_compute. repeat split; try reflexivity.
  eexists. split; reflexivity.
Qed.

End connectivity_bug.

Section prize_claim.
Import Cypher app samples.

Lemma subscript_Some prize k v w :
  dict_lookup prize k = Some v → subscript prize k w = (Returned v, w).
Proof. intros H. unfold subscript. by rewrite H. Qed.

Lemma dict_get_Some prize k v dflt :
  dict_lookup prize k = Some v → dict_get prize k dflt = v.
Proof. intros H. unfold dict_get. by rewrite H. Qed.

(** The CREATE statements run one by one, each committed on its own: a
    link that carries [j] more statements lets the first [j] prizes in. *)
Lemma create_prizes_run prizes prize_type w :
  Forall well_keyed prizes →
  let n := match link w with
           | None => length prizes
           | Some j => min j (length prizes)
           end in
  (create_prizes prizes prize_type w).1
    = (if decide (n < length prizes) then Raised ServiceUnavailable else Returned tt) ∧
  store (create_prizes prizes prize_type w).2
    = add_prizes (take n prizes) prize_type (store w).
Proof.
  intros Hk. revert w. induction Hk as [| prize rest Hp Hrest IH]; intros w n.
  - subst n. simpl. destruct (link w) as [[| j] |]; simpl; done.
  - destruct Hp as ([a Ha] & [b Hb] & [c Hc]).
    cbn [create_prizes]. unfold bind.
    rewrite (subscript_Some _ _ _ _ Ha), (subscript_Some _ _ _ _ Hb),
            (subscript_Some _ _ _ _ Hc).
    destruct (link w) as [[| j] |] eqn:El.
    + rewrite session_run_down by done. subst n. simpl. done.
    + unfold session_run. rewrite El. cbn [create_prize_query].
      subst n. simpl.
      match goal with |- context [create_prizes rest prize_type ?w1] =>
        specialize (IH w1) end.
      simpl in IH. destruct IH as [IH1 IH2].
      rewrite (dict_get_Some _ _ _ _ Ha), (dict_get_Some _ _ _ _ Hb),
              (dict_get_Some _ _ _ _ Hc).
      split; [| exact IH2].
      rewrite IH1. repeat case_decide; (done || lia).
    + unfold session_run. rewrite El. cbn [create_prize_query].
      subst n. simpl.
      match goal with |- context [create_prizes rest prize_type ?w1] =>
        specialize (IH w1) end.
      simpl in IH. destruct IH as [IH1 IH2].
      rewrite (dict_get_Some _ _ _ _ Ha), (dict_get_Some _ _ _ _ Hb),
              (dict_get_Some _ _ _ _ Hc).
      split; [| exact IH2].
      rewrite IH1. repeat case_decide; (done || lia).
Qed.

Lemma rels_add_prizes prizes prize_type g :
  rels (add_prizes prizes prize_type g) = rels g.
Proof.
  unfold add_prizes. revert g. induction prizes as [| p ps IH]; intros g; [done |].
  simpl. by rewrite IH.
Qed.

Lemma prize_props_type a b c prize_type :
  prize_props a b c prize_type !! "type"%string = Some (VStr prize_type).
Proof. unfold prize_props, set_props. simpl. apply lookup_insert_eq. Qed.

Lemma new_prize_matches i a b c prize_type :
  node_matches Prize "type" (VStr prize_type)
    (mkNode i Prize (prize_props a b c prize_type)) = true.
Proof.
  unfold node_matches, prop. simpl. rewrite prize_props_type. simpl.
  unfold passes. apply bool_decide_eq_true. by rewrite bool_decide_eq_true_2.
Qed.

(** The CREATE statements append one node for each dict, in order, each
    with the properties of its dict and the type asked for. *)
Lemma nodes_add_prizes prizes prize_type g :
  ∃ news, nodes (add_prizes prizes prize_type g) = nodes g ++ news ∧
          nprops <$> news = props_of_prize prize_type <$> prizes ∧
          List.filter (node_matches Prize "type" (VStr prize_type)) news = news.
Proof.
  unfold add_prizes. revert g. induction prizes as [| p ps IH]; intros g.
  - exists []. by rewrite app_nil_r.
  - simpl. destruct (IH (create_prize (dict_get p "name" VNull)
                           (dict_get p "description" VNull)
                           (dict_get p "weight" VNull) prize_type g))
      as (news & Hn & Hp & Hf).
    eexists (_ :: news). split; [| split].
    + rewrite Hn. unfold create_prize. simpl. by rewrite <- app_assoc.
    + csimpl. by rewrite Hp.
    + simpl. rewrite new_prize_matches. by rewrite Hf.
Qed.

Lemma filter_filter_negb {A} (P : A → bool) (l : list A) :
  List.filter P (List.filter (λ x, negb (P x)) l) = [].
Proof.
  induction l as [| x l IH]; [done |]. simpl.
  destruct (P x) eqn:E; simpl; [done |]. by rewrite E.
Qed.

Lemma filter_negb_filter_negb {A} (P : A → bool) (l : list A) :
  List.filter (λ x, negb (P x)) (List.filter (λ x, negb (P x)) l)
  = List.filter (λ x, negb (P x)) l.
Proof.
  induction l as [| x l IH]; [done |]. simpl.
  destruct (P x) eqn:E; simpl; [done |]. rewrite E. simpl. by rewrite IH.
Qed.

Lemma filter_negb_of_filter {A} (P : A → bool) (l : list A) :
  List.filter P l = l → List.filter (λ x, negb (P x)) l = [].
Proof.
  induction l as [| x l IH]; [done |]. simpl.
  destruct (P x) eqn:E; simpl.
  - intros [= H]. by apply IH.
  - intros H. assert (x ∈ List.filter P l) as Hin by (rewrite H; left).
    apply list_elem_of_In, filter_In in Hin as [_ Hin]. congruence.
Qed.

Lemma delete_nodes_Some sel g g0 :
  delete_nodes sel g = Some g0 →
  nodes g0 = List.filter (λ n, negb (sel n)) (nodes g) ∧ rels g0 = rels g.
Proof.
  unfold delete_nodes. destruct (existsb _ _); [done |]. by intros [= <-].
Qed.

(** C7, as the code has it.  [save_custom_prizes] is a DELETE statement
    followed by one CREATE statement for each prize, each committed on its
    own.  With a session at hand, well-formed prize dicts and no
    relationship on the old prizes: a link that is down changes nothing; a
    link that carries the DELETE and [n] of the CREATE statements leaves
    the old prizes of the type gone and the first [n] given prizes in
    their place, and the call raises when [n] is short of the list; a link
    that holds gives exactly the given list.  Prizes of other types and
    all relationships stay as they were. *)
Theorem save_custom_prizes_statement_by_statement
    (prizes : list Row) (prize_type : string) (w : World) (g0 : Graph) :
  driver w = true →
  Forall well_keyed prizes →
  delete_nodes (node_matches Prize "type" (VStr prize_type)) (store w) = Some g0 →
  let r := save_custom_prizes prizes prize_type w in
  let n := match link w with
           | None => length prizes
           | Some j => min (pred j) (length prizes)
           end in
  (link w = Some 0 → r.1 = Raised ServiceUnavailable ∧ store r.2 = store w) ∧
  (link w ≠ Some 0 →
   r.1 = (if decide (n < length prizes) then Raised ServiceUnavailable else Returned tt) ∧
   store r.2 = add_prizes (take n prizes) prize_type g0 ∧
   nprops <$> prizes_of_type prize_type (store r.2)
     = props_of_prize prize_type <$> take n prizes ∧
   List.filter (λ p, negb (node_matches Prize "type" (VStr prize_type) p))
               (nodes (store r.2))
     = List.filter (λ p, negb (node_matches Prize "type" (VStr prize_type) p))
                   (nodes (store w)) ∧
   rels (store r.2) = rels (store w)).
Proof.
  intros Hd Hk Hdel r n. subst r. unfold save_custom_prizes, bind.
  rewrite (get_session_cached w Hd). split.
  - intros Hl. by rewrite session_run_down.
  - intros Hl.
    assert (Hrun : session_run (delete_prizes_query prize_type) w
                   = (Returned tt, after_statement g0 w)).
    { unfold session_run, after_statement, delete_prizes_query.
      destruct (link w) as [[| j] |]; [done | |]; by rewrite Hdel. }
    rewrite Hrun.
    pose proof (create_prizes_run prizes prize_type (after_statement g0 w) Hk) as Hc.
    cbn [after_statement link store] in Hc.
    assert (Hn : match pred <$> link w with
                 | Some j => j `min` length prizes
                 | None => length prizes
                 end = n).
    { subst n. by destruct (link w). }
    rewrite Hn in Hc. destruct Hc as [Hc1 Hc2].
    split; [exact Hc1 |]. split; [exact Hc2 |].
    rewrite Hc2.
    destruct (nodes_add_prizes (take n prizes) prize_type g0) as (news & Hnodes & Hp & Hf).
    apply delete_nodes_Some in Hdel as [Hn0 Hr0].
    split; [| split].
    + unfold prizes_of_type, match_nodes. rewrite Hnodes, List.filter_app, Hn0.
      by rewrite filter_filter_negb, Hf.
    + rewrite Hnodes, List.filter_app, Hn0, filter_negb_filter_negb.
      by rewrite (filter_negb_of_filter _ _ Hf), app_nil_r.
    + by rewrite rels_add_prizes.
Qed.

End prize_claim.

Section prize_examples.
Import Cypher app samples.

Lemma well_keyed_new_prizes : Forall well_keyed new_prizes.
Proof. repeat constructor; by eexists. Defined.

Lemma save_custom_prizes_statement_by_statement_witness :
  let r := save_custom_prizes new_prizes "parent"
             (mkWorld prize_shelf None 0 true true true) in
  r.1 = Returned tt ∧
  nprops <$> prizes_of_type "parent" (store r.2)
    = props_of_prize "parent" <$> new_prizes.
Proof.
  destruct (save_custom_prizes_statement_by_statement new_prizes "parent"
              (mkWorld prize_shelf None 0 true true true)
              (mkGraph [mkNode 2 Prize {[ "name" := VStr "badge";
                                          "description" := VStr "class badge";
                                          "weight" := VInt 10;
                                          "type" := VStr "teacher" ]}] []))
    as [_ H].
  - reflexivity.
  - apply well_keyed_new_prizes.
  - reflexivity.
  - destruct H as (H1 & _ & H3 & _); [discriminate |].
    split; [exact H1 | exact H3].
Defined.

(** C7 as stated fails: the link carries the DELETE and the first CREATE
    and then goes down.  The call raises, and the store is left with one
    parent prize, which is neither the set it had nor the set it was
    given. *)
Lemma save_custom_prizes_not_atomic :
  let r := save_custom_prizes new_prizes "parent"
             (mkWorld prize_shelf (Some 2) 0 true true true) in
  r.1 = Raised ServiceUnavailable ∧
  prize_names "parent" prize_shelf = [VStr "sticker"; VStr "cinema"] ∧
  prize_names "parent" (store r.2) = [VStr "zoo"] ∧
  prize_names "parent" (store r.2) ≠ prize_names "parent" prize_shelf ∧
  prize_names "parent" (store r.2)
    ≠ (λ p, dict_get p "name" VNull) <$> new_prizes.
Proof. vm_compute. repeat split; (reflexivity || discriminate). Qed.

End prize_examples.

Section delete_claim.
Import Cypher app samples.

(** A plain DELETE is refused exactly when a relationship still touches
    one of the nodes it selects. *)
Lemma delete_nodes_None sel g :
  delete_nodes sel g = None ↔
  ∃ r n, r ∈ rels g ∧ n ∈ nodes g ∧ sel n = true ∧ touches (nid n) r = true.
Proof.
  unfold delete_nodes. destruct (existsb _ _) eqn:E.
  - split; [intros _ | done].
    apply existsb_exists in E as (r & Hr & E).
    apply existsb_exists in E as (i & Hi & Ht).
    apply list_elem_of_In, list_elem_of_fmap in Hi as (n & -> & Hn).
    apply list_elem_of_In, filter_In in Hn as [Hn Hs].
    exists r, n. by rewrite <- !list_elem_of_In in *.
  - split; [done |]. intros (r & n & Hr & Hn & Hs & Ht).
    assert (existsb (λ r, existsb (λ i, touches i r) (nid <$> List.filter sel (nodes g)))
                    (rels g) = true) as E'; [| congruence].
    apply existsb_exists. exists r. split; [by apply list_elem_of_In |].
    apply existsb_exists. exists (nid n). split; [| done].
    apply list_elem_of_In, list_elem_of_fmap. exists n. split; [done |].
    apply list_elem_of_In, filter_In. split; [by apply list_elem_of_In | done].
Qed.

Lemma filter_negb_of_empty {A} (P : A → bool) (l : list A) :
  List.filter P l = [] → List.filter (λ x, negb (P x)) l = l.
Proof.
  induction l as [| x l IH]; [done |]. simpl.
  destruct (P x); [done |]. simpl. intros H. f_equal. by apply IH.
Qed.

(** A guarded statement whose result is not read: [True] once it is sent. *)
Lemma guarded_unread_serving (q : Statement unit) w :
  serving w →
  (let* session := get_session in
   if session then try_except (let* _ := session_run_unread q in ret true) (ret false)
   else ret false) w
  = (Returned true,
     after_statement (default (store w) (snd <$> q (clock (connected w)) (store w)))
                     (connected w)).
Proof.
  intros Hs. unfold bind at 1. rewrite (get_session_serving w Hs).
  unfold try_except, bind, session_run_unread, after_statement, ret.
  rewrite !link_connected, !store_connected. destruct Hs as [-> _]. done.
Qed.

(** It never raises, and [False] means that nothing was sent. *)
Lemma guarded_unread_total (q : Statement unit) w :
  ∃ b w',
    (let* session := get_session in
     if session then try_except (let* _ := session_run_unread q in ret true) (ret false)
     else ret false) w = (Returned b, w') ∧
    (b = false → store w' = store w).
Proof.
  unfold bind at 1. destruct (get_session_total w) as (ok & w1 & -> & Hst).
  destruct ok; [| by exists false, w1].
  unfold try_except, bind, session_run_unread.
  destruct (link w1) as [[| j] |].
  - by exists false, w1.
  - by eexists true, _.
  - by eexists true, _.
Qed.

Lemma delete_nodes_unattached sel g :
  unattached sel g →
  delete_nodes sel g = Some (mkGraph (List.filter (λ n, negb (sel n)) (nodes g)) (rels g)).
Proof.
  intros Hno. destruct (delete_nodes sel g) as [g' |] eqn:E.
  - apply delete_nodes_Some in E as [E1 E2]. destruct g'. simpl in *. by subst.
  - apply delete_nodes_None in E as (r & n & Hr & Hn & Hsel & Ht).
    rewrite (Hno r n Hr Hn Hsel) in Ht. done.
Qed.

(** C9, as amended.  [delete_user] and [delete_all_users] never raise, and
    when one returns [False] the store is as it was.  With the store
    answering and no relationship on the user nodes the DELETE selects (as
    in every store this program builds), the call returns [True], the
    selected user nodes are gone, no relationship of the store is on a
    removed node, and every other node and every relationship is as
    before.  [True] does not tell that a node was removed: a call for an
    id that no node has returns [True] and leaves the store as it was. *)
Theorem delete_user_removes_node (user_id : string) (w : World) :
  let by_id := node_matches User "id" (VStr user_id) in
  let one := delete_user user_id w in
  let all := delete_all_users w in
  (∃ b, one.1 = Returned b ∧ (b = false → store one.2 = store w)) ∧
  (∃ b, all.1 = Returned b ∧ (b = false → store all.2 = store w)) ∧
  (serving w → unattached by_id (store w) →
   one.1 = Returned true ∧
   match_nodes User "id" (VStr user_id) (store one.2) = [] ∧
   nodes (store one.2) = List.filter (λ n, negb (by_id n)) (nodes (store w)) ∧
   rels (store one.2) = rels (store w) ∧
   unattached by_id (mkGraph (nodes (store w)) (rels (store one.2)))) ∧
  (serving w → match_nodes User "id" (VStr user_id) (store w) = [] →
   one.1 = Returned true ∧ store one.2 = store w) ∧
  (serving w → unattached (has_label User) (store w) →
   all.1 = Returned true ∧
   List.filter (has_label User) (nodes (store all.2)) = [] ∧
   nodes (store all.2) = List.filter (λ n, negb (has_label User n)) (nodes (store w)) ∧
   rels (store all.2) = rels (store w) ∧
   unattached (has_label User) (mkGraph (nodes (store w)) (rels (store all.2)))).
Proof.
  intros by_id one all.
  assert (Hone : serving w → unattached by_id (store w) →
                 one = (Returned true,
                        after_statement
                          (mkGraph (List.filter (λ n, negb (by_id n)) (nodes (store w)))
                                   (rels (store w)))
                          (connected w))).
  { intros Hs Hno. subst one. unfold delete_user.
    rewrite guarded_unread_serving by done. unfold delete_user_query. fold by_id.
    by rewrite (delete_nodes_unattached by_id (store w) Hno). }
  assert (Hall : serving w → unattached (has_label User) (store w) →
                 all = (Returned true,
                        after_statement
                          (mkGraph (List.filter (λ n, negb (has_label User n))
                                                (nodes (store w)))
                                   (rels (store w)))
                          (connected w))).
  { intros Hs Hno. subst all. unfold delete_all_users.
    rewrite guarded_unread_serving by done. unfold delete_all_users_query.
    by rewrite (delete_nodes_unattached _ (store w) Hno). }
  split; [| split; [| split; [| split]]].
  - destruct (guarded_unread_total (delete_user_query user_id) w) as (b & w' & Hr & Hb).
    exists b. subst one. unfold delete_user. by rewrite Hr.
  - destruct (guarded_unread_total delete_all_users_query w) as (b & w' & Hr & Hb).
    exists b. subst all. unfold delete_all_users. by rewrite Hr.
  - intros Hs Hno. rewrite (Hone Hs Hno). cbn [fst snd after_statement store nodes rels].
    split; [done |]. split; [apply filter_filter_negb |]. split; [done |].
    split; [done |]. by destruct (store w).
  - intros Hs Hnone.
    assert (unattached by_id (store w)) as Hno.
    { intros r n Hr Hn Hsel.
      assert (n ∈ match_nodes User "id" (VStr user_id) (store w)) as Hin.
      { apply list_elem_of_In, filter_In. split; [by apply list_elem_of_In | done]. }
      rewrite Hnone in Hin. by apply elem_of_nil in Hin. }
    rewrite (Hone Hs Hno). cbn [fst snd after_statement store].
    split; [done |]. unfold match_nodes in Hnone. subst by_id. cbv beta.
    rewrite (filter_negb_of_empty _ _ Hnone). by destruct (store w).
  - intros Hs Hno. rewrite (Hall Hs Hno). cbn [fst snd after_statement store nodes rels].
    split; [done |]. split; [apply filter_filter_negb |]. split; [done |].
    split; [done |]. by destruct (store w).
Qed.

End delete_claim.

Section delete_examples.
Import Cypher app samples.

(** In [classroom] the one user node has no relationship. *)
Lemma unattached_users_classroom sel :
  (∀ n, sel n = true → nlabel n = User) → unattached sel classroom.
Proof.
  intros Hsel r n Hr Hn Hn'. apply Hsel in Hn'.
  assert (n = amy) as ->.
  { unfold classroom in Hn. cbn [nodes] in Hn.
    repeat (apply elem_of_cons in Hn as [-> | Hn]; [reflexivity || discriminate Hn' |]).
    by apply elem_of_nil in Hn. }
  unfold classroom in Hr. cbn [rels] in Hr.
  repeat (apply elem_of_cons in Hr as [-> | Hr]; [reflexivity |]).
  by apply elem_of_nil in Hr.
Qed.

Lemma delete_user_removes_node_witness :
  (delete_user "amy" (online classroom)).1 = Returned true ∧
  match_nodes User "id" (VStr "amy") (store (delete_user "amy" (online classroom)).2) = [] ∧
  (delete_all_users (online classroom)).1 = Returned true ∧
  List.filter (has_label User) (nodes (store (delete_all_users (online classroom)).2)) = [].
Proof.
  destruct (delete_user_removes_node "amy" (online classroom))
    as (_ & _ & Hone & _ & Hall).
  destruct Hone as (H1 & H2 & _).
  - apply serving_online.
  - apply unattached_users_classroom. intros n Hn.
    apply andb_true_iff in Hn as [Hn _]. by apply bool_decide_eq_true in Hn.
  - destruct Hall as (H3 & H4 & _).
    + apply serving_online.
    + apply unattached_users_classroom. intros n Hn. by apply bool_decide_eq_true in Hn.
    + repeat split; assumption.
Defined.

(** C9 as stated fails: success is not returned exactly when a removal
    happened.  No node has the id "nobody"; the call returns [True], and
    the store is as it was. *)
Lemma delete_user_reports_without_removal :
  first_user "nobody" classroom = None ∧
  (delete_user "nobody" (online classroom)).1 = Returned true ∧
  store (delete_user "nobody" (online classroom)).2 = classroom.
Proof. vm_compute. repeat split; reflexivity. Qed.

End delete_examples.

(* ===================================================================== *)
(** * Facts about root identification *)
(* ===================================================================== *)

Section identify_roots_facts.
Import word_parser.

Variable lower : string → string.

Lemma word_lower_map_snoc ws x :
  word_lower_map lower (ws ++ [x])
  = <[lower (word x) := length ws]> (word_lower_map lower ws).
Proof.
  unfold word_lower_map. rewrite imap_app, foldl_app. simpl.
  by rewrite Nat.add_0_r.
Qed.

(** The position the map keeps for a key is that of the last entry that
    has the key. *)
Lemma word_lower_map_lookup ws k i :
  word_lower_map lower ws !! k = Some i ↔
  (∃ w, ws !! i = Some w ∧ lower (word w) = k) ∧
  (∀ j w', i < j → ws !! j = Some w' → lower (word w') ≠ k).
Proof.
  revert i. induction ws as [| x ws IH] using rev_ind; intros i.
  - unfold word_lower_map. simpl. rewrite lookup_empty. split; [done |].
    intros [(w & Hw & _) _]. done.
  - rewrite word_lower_map_snoc.
    destruct (decide (lower (word x) = k)) as [Hk | Hk].
    + rewrite Hk, lookup_insert_eq. split.
      * intros [= <-]. split.
        -- exists x. by rewrite list_lookup_middle.
        -- intros j w' Hj Hw'. apply lookup_lt_Some in Hw'.
           rewrite length_app in Hw'. simpl in Hw'. lia.
      * intros [(w & Hw & Hwk) Hlast]. f_equal.
        destruct (decide (i = length ws)) as [-> | Hne]; [done |].
        assert (i < length ws) as Hlt.
        { apply lookup_lt_Some in Hw. rewrite length_app in Hw. simpl in Hw. lia. }
        exfalso. apply (Hlast (length ws) x Hlt); [| done].
        by rewrite list_lookup_middle.
    + rewrite lookup_insert_ne by done. rewrite IH. split.
      * intros [(w & Hw & Hwk) Hlast]. split.
        -- exists w. split; [| done]. by apply lookup_app_l_Some.
        -- intros j w' Hj Hw'.
           destruct (decide (j < length ws)) as [Hlt | Hge].
           ++ rewrite lookup_app_l in Hw' by done. by apply (Hlast j).
           ++ assert (j = length ws) as ->.
              { apply lookup_lt_Some in Hw'. rewrite length_app in Hw'.
                simpl in Hw'. lia. }
              rewrite list_lookup_middle in Hw' by done. by injection Hw' as <-.
      * intros [(w & Hw & Hwk) Hlast].
        assert (i < length ws) as Hlt.
        { destruct (decide (i = length ws)) as [-> | Hne].
          - rewrite list_lookup_middle in Hw by done. injection Hw as <-. done.
          - apply lookup_lt_Some in Hw. rewrite length_app in Hw. simpl in Hw. lia. }
        rewrite lookup_app_l in Hw by done. split; [by exists w |].
        intros j w' Hj Hw'. apply (Hlast j w' Hj). by apply lookup_app_l_Some.
Qed.

Lemma set_root_set_root r r' w : set_root r (set_root r' w) = set_root r w.
Proof. done. Qed.

Lemma word_set_root r w : word (set_root r w) = word w.
Proof. done. Qed.

(** One member of one family: the entry the map binds to the member's
    key gets the family's label, the others stay. *)
Lemma assign_member_lookup (m : gmap string nat) rk ws t i :
  assign_member lower m rk ws t !! i
  = (λ w, if bool_decide (m !! lower t = Some i)
          then set_root (before_slash rk) w else w) <$> ws !! i.
Proof.
  unfold assign_member. destruct (m !! lower t) as [j |] eqn:E.
  - rewrite list_lookup_alter. destruct (decide (j = i)) as [-> | Hne].
    + by rewrite bool_decide_eq_true_2.
    + rewrite bool_decide_eq_false_2 by congruence. by destruct (ws !! i).
  - rewrite bool_decide_eq_false_2 by done. by destruct (ws !! i).
Qed.

Lemma assign_members_lookup (m : gmap string nat) rk members ws i :
  foldl (assign_member lower m rk) ws members !! i
  = (λ w, if existsb (λ t, bool_decide (m !! lower t = Some i)) members
          then set_root (before_slash rk) w else w) <$> ws !! i.
Proof.
  revert ws. induction members as [| t members IH]; intros ws.
  - simpl. by destruct (ws !! i).
  - simpl. rewrite IH, assign_member_lookup.
    destruct (ws !! i) as [w |]; [| done]. simpl. f_equal.
    destruct (bool_decide (m !! lower t = Some i)); simpl; [| done].
    by destruct (existsb _ members).
Qed.

Lemma winning_root_from_start start table key :
  winning_root_from lower start table key
  = match winning_root lower table key with
    | Some r => Some r
    | None => start
    end.
Proof.
  unfold winning_root, winning_root_from. revert start.
  induction table as [| fam table IH]; intros start; [done |].
  simpl. rewrite (IH (if lists_key lower key fam then _ else start)).
  rewrite (IH (if lists_key lower key fam then _ else None)).
  destruct (foldl _ None table); [done |]. by destruct (lists_key lower key fam).
Qed.

Lemma winning_root_cons fam table key :
  winning_root lower (fam :: table) key
  = match winning_root lower table key with
    | Some r => Some r
    | None => if lists_key lower key fam then Some (before_slash fam.1) else None
    end.
Proof.
  unfold winning_root at 1. unfold winning_root_from. simpl.
  apply (winning_root_from_start _ table key).
Qed.

Section one_position.

(** A map that binds a position only under the key of the entry there,
    as [word_lower_map] does; [w0] is the entry at position [i]. *)
Variable m : gmap string nat.
Variable i : nat.
Variable w0 : Word.
Hypothesis m_own : ∀ k, m !! k = Some i → k = lower (word w0).

Lemma claimed_by_family members :
  existsb (λ t, bool_decide (m !! lower t = Some i)) members
  = bool_decide (m !! lower (word w0) = Some i)
    && bool_decide (lower (word w0) ∈ lower <$> members).
Proof.
  destruct (existsb _ members) eqn:E.
  - apply existsb_exists in E as (t & Ht & E). apply bool_decide_eq_true in E.
    pose proof (m_own _ E) as Hk. symmetry. apply andb_true_iff. split.
    + apply bool_decide_eq_true. by rewrite <- Hk.
    + apply bool_decide_eq_true. rewrite <- Hk.
      apply list_elem_of_fmap. exists t. split; [done | by apply list_elem_of_In].
  - symmetry. apply andb_false_iff.
    destruct (bool_decide (m !! lower (word w0) = Some i)) eqn:Eo; [| by left].
    right. apply bool_decide_eq_false. intros Hin.
    apply list_elem_of_fmap in Hin as (t & Ht & Hin).
    apply bool_decide_eq_true in Eo.
    assert (existsb (λ t, bool_decide (m !! lower t = Some i)) members = true) as E'.
    { apply existsb_exists. exists t. split; [by apply list_elem_of_In |].
      apply bool_decide_eq_true. by rewrite <- Ht. }
    congruence.
Qed.

Lemma assign_families_lookup table ws w :
  ws !! i = Some w → word w = word w0 →
  foldl (assign_family lower m) ws table !! i
  = Some (if bool_decide (m !! lower (word w0) = Some i)
          then from_option (λ r, set_root r w) w
                 (winning_root lower table (lower (word w0)))
          else w).
Proof.
  revert ws w. induction table as [| fam table IH]; intros ws w Hw Hword.
  - simpl. rewrite Hw. by destruct (bool_decide _).
  - simpl. unfold assign_family at 2.
    pose proof (assign_members_lookup m fam.1 fam.2 ws i) as Hfam.
    rewrite Hw, claimed_by_family in Hfam. simpl in Hfam.
    rewrite (IH _ _ Hfam).
    + rewrite winning_root_cons. unfold lists_key.
      destruct (bool_decide (m !! lower (word w0) = Some i)); simpl; [| done].
      destruct (bool_decide (lower (word w0) ∈ lower <$> fam.2)); simpl.
      * by destruct (winning_root lower table (lower (word w0))).
      * by destruct (winning_root lower table (lower (word w0))).
    + by destruct (_ && _).
Qed.

End one_position.

(** The whole pass, entry by entry: the entry that is the last one with
    its lower-cased headword gets the primary label of the last family
    that lists that headword, if any family does; every other entry is
    left as it was. *)
Lemma identify_roots_with_lookup table ws i w :
  ws !! i = Some w →
  identify_roots_with lower table ws !! i
  = Some (if bool_decide (word_lower_map lower ws !! lower (word w) = Some i)
          then from_option (λ r, set_root r w) w
                 (winning_root lower table (lower (word w)))
          else w).
Proof.
  intros Hw. unfold identify_roots_with.
  apply (assign_families_lookup (word_lower_map lower ws) i w); [| done | done].
  intros k Hk. apply word_lower_map_lookup in Hk as [(w' & Hw' & Hk) _].
  rewrite Hw in Hw'. by injection Hw' as <-.
Qed.

Lemma length_identify_roots_with table ws :
  length (identify_roots_with lower table ws) = length ws.
Proof.
  unfold identify_roots_with. generalize (word_lower_map lower ws) as m. intros m.
  revert ws. induction table as [| fam table IH]; intros ws; [done |].
  simpl. rewrite IH. unfold assign_family. generalize (fam.2) as members.
  intros members. revert ws. induction members as [| t members IHm]; intros ws; [done |].
  simpl. rewrite IHm. unfold assign_member. destruct (m !! lower t); [| done].
  apply length_alter.
Qed.

(** An entry that is followed by another entry with the same lower-cased
    headword is out of the map, so the pass leaves it as it was. *)
Lemma identify_roots_with_repeated table ws i j w w' :
  ws !! i = Some w → ws !! j = Some w' → i < j →
  lower (word w') = lower (word w) →
  identify_roots_with lower table ws !! i = Some w.
Proof.
  intros Hw Hw' Hij Hk. rewrite (identify_roots_with_lookup _ _ _ _ Hw).
  rewrite bool_decide_eq_false_2; [done |].
  intros Hm. apply word_lower_map_lookup in Hm as [_ Hlast].
  by apply (Hlast j w' Hij Hw').
Qed.

End identify_roots_facts.

Section identify_roots_bug.
Import word_parser samples.

(** C5, at the failing input: the headword "act" of the first family is
    parsed twice (once per textbook volume), with "action" in between.
    After the pass the first "act" entry still has an empty root, while
    "action" and the second "act" carry the label "act": the pass reaches
    only the last entry of each lower-cased headword. *)
Theorem identify_roots_misses_repeated_headword :
  root <$> _identify_roots ascii_lower [act_7b; action_8a; act_8a]
  = [""; "act"; "act"].
Proof. vm_compute. reflexivity. Qed.

End identify_roots_bug.

(* ===================================================================== *)
(** * Facts about MERGE *)
(* ===================================================================== *)

Section merge_facts.
Import Cypher.

Lemma rels_merge_set l k v kvs g : rels (merge_set l k v kvs g) = rels g.
Proof. unfold merge_set. by destruct (existsb _ _). Qed.

Lemma nodes_merge_rel q g : nodes (merge_rel q g) = nodes g.
Proof. unfold merge_rel. by destruct (existsb _ _). Qed.

Lemma nodes_merge_rels qs g : nodes (merge_rels qs g) = nodes g.
Proof.
  unfold merge_rels. revert g. induction qs as [| q qs IH]; intros g; [done |].
  simpl. by rewrite IH, nodes_merge_rel.
Qed.

(** A selection that leaves the label [l] out does not see what a MERGE
    on [l] does. *)
Lemma filter_merge_set_other (P : Node → bool) l k v kvs g :
  (∀ n, P n = true → nlabel n ≠ l) →
  List.filter P (nodes (merge_set l k v kvs g)) = List.filter P (nodes g).
Proof.
  intros HP. unfold merge_set. destruct (existsb _ _); simpl.
  - induction (nodes g) as [| n ns IH]; [done |]. csimpl. rewrite IH.
    destruct (node_matches l k v n) eqn:Hm; [| done].
    apply node_matches_label in Hm.
    destruct (P (upd_props kvs n)) eqn:E1.
    { by apply HP in E1. }
    destruct (P n) eqn:E2; [| done]. by apply HP in E2.
  - rewrite List.filter_app. simpl.
    destruct (P _) eqn:E; [| by rewrite app_nil_r]. by apply HP in E.
Qed.

Lemma fresh_id_fresh g n : n ∈ nodes g → nid n < fresh_id g.
Proof.
  intros Hn. unfold fresh_id.
  assert (nid n ≤ max_list (nid <$> nodes g)); [| lia].
  apply max_list_elem_of_le. apply list_elem_of_fmap. by exists n.
Qed.

Lemma ids_merge_set l k v kvs g :
  nid <$> nodes (merge_set l k v kvs g)
  = if existsb (node_matches l k v) (nodes g) then nid <$> nodes g
    else (nid <$> nodes g) ++ [fresh_id g].
Proof.
  unfold merge_set. destruct (existsb _ _); simpl.
  - rewrite <- list_fmap_compose. apply list_fmap_ext. intros i n _. simpl.
    by destruct (node_matches l k v n).
  - by rewrite fmap_app.
Qed.

Lemma ids_unique_merge_set l k v kvs g :
  graph_views.ids_unique g → graph_views.ids_unique (merge_set l k v kvs g).
Proof.
  unfold graph_views.ids_unique. intros Hg. rewrite ids_merge_set.
  destruct (existsb _ _); [done |].
  apply NoDup_app. split; [done |]. split; [| apply NoDup_singleton].
  intros i Hi Hi'. apply list_elem_of_singleton in Hi'. subst i.
  apply list_elem_of_fmap in Hi as (n & Hn & Hin).
  apply fresh_id_fresh in Hin. lia.
Qed.

End merge_facts.

Section merge_rels_facts.
Import Cypher.

Lemma merge_rels_snoc qs q g :
  merge_rels (qs ++ [q]) g = merge_rel q (merge_rels qs g).
Proof. unfold merge_rels. by rewrite foldl_snoc. Qed.

Lemma existsb_app_true {A} (P : A → bool) l1 l2 :
  existsb P l1 = true → existsb P (l1 ++ l2) = true.
Proof. intros H. rewrite existsb_app, H. done. Qed.

(** What a list of relationship MERGEs does to the store: the nodes stay,
    relationships are added at the end, each one built from a request that
    nothing matched before, and afterwards every request that matches what
    it builds is matched. *)
Lemma merge_rels_spec qs g :
  ∃ new,
    merge_rels qs g = mkGraph (nodes g) (rels g ++ new) ∧
    (∀ e, e ∈ new → ∃ q, q ∈ qs ∧ e = rel_of_req q) ∧
    ((∀ q, q ∈ qs → rel_matches q (rel_of_req q) = true) →
       NoDup new ∧
       ∀ q, q ∈ qs → existsb (rel_matches q) (rels g ++ new) = true).
Proof.
  induction qs as [| q qs IH] using rev_ind.
  - exists []. split; [| split].
    + unfold merge_rels. simpl. rewrite app_nil_r. by destruct g.
    + intros e He. by apply elem_of_nil in He.
    + intros _. split; [apply NoDup_nil_2 |]. intros q Hq. by apply elem_of_nil in Hq.
  - destruct IH as (new & Hg & Hfrom & Hrest).
    rewrite merge_rels_snoc, Hg. unfold merge_rel. cbn [rels nodes].
    destruct (existsb (rel_matches q) (rels g ++ new)) eqn:Ex.
    + exists new. split; [done |]. split.
      * intros e He. destruct (Hfrom e He) as (q' & Hq' & ->).
        exists q'. split; [| done]. apply elem_of_app. by left.
      * intros Hself. destruct Hrest as [Hnd Hall].
        { intros q' Hq'. apply Hself. apply elem_of_app. by left. }
        split; [done |]. intros q' Hq'. apply elem_of_app in Hq' as [Hq' | Hq'].
        -- by apply Hall.
        -- apply list_elem_of_singleton in Hq'. by subst q'.
    + exists (new ++ [rel_of_req q]). split; [by rewrite app_assoc |]. split.
      * intros e He. apply elem_of_app in He as [He | He].
        -- destruct (Hfrom e He) as (q' & Hq' & ->).
           exists q'. split; [| done]. apply elem_of_app. by left.
        -- apply list_elem_of_singleton in He. subst e.
           exists q. split; [| done]. apply elem_of_app. right.
           by apply list_elem_of_singleton.
      * intros Hself. destruct Hrest as [Hnd Hall].
        { intros q' Hq'. apply Hself. apply elem_of_app. by left. }
        assert (rel_matches q (rel_of_req q) = true) as Hq.
        { apply Hself. apply elem_of_app. right. by apply list_elem_of_singleton. }
        split.
        -- apply NoDup_app. split; [done |]. split; [| apply NoDup_singleton].
           intros e He He'. apply list_elem_of_singleton in He'. subst e.
           assert (existsb (rel_matches q) (rels g ++ new) = true); [| congruence].
           apply existsb_exists. exists (rel_of_req q). split; [| done].
           apply list_elem_of_In, elem_of_app. by right.
        -- intros q' Hq'. rewrite app_assoc.
           apply elem_of_app in Hq' as [Hq' | Hq'].
           ++ apply existsb_app_true. by apply Hall.
           ++ apply list_elem_of_singleton in Hq'. subst q'.
              rewrite existsb_app. simpl. rewrite Hq. by rewrite orb_true_r.
Qed.

Lemma rel_matches_type q e : rel_matches q e = true → rtype e = qtype q.
Proof.
  unfold rel_matches. intros H. repeat (apply andb_true_iff in H as [H _]).
  by apply bool_decide_eq_true in H.
Qed.

End merge_rels_facts.

(* ===================================================================== *)
(** * Co-root relationships *)
(* ===================================================================== *)

Section same_root_facts.
Import Cypher neo4j_import graph_views.

Lemma has_root_edge_lookup w r g :
  has_root_edge w r g = true ↔
  ∃ i e, rels g !! i = Some e ∧ rtype e = HAS_ROOT ∧ rsrc e = w ∧ rdst e = r.
Proof.
  unfold has_root_edge. rewrite existsb_exists. split.
  - intros (e & He & H). apply list_elem_of_In, list_elem_of_lookup in He as [i Hi].
    apply andb_true_iff in H as [H H3]. apply andb_true_iff in H as [H1 H2].
    apply bool_decide_eq_true in H1, H2, H3. by exists i, e.
  - intros (i & e & Hi & H1 & H2 & H3). exists e. split.
    + apply list_elem_of_In. by apply list_elem_of_lookup_2 in Hi.
    + rewrite !andb_true_iff, !bool_decide_eq_true. done.
Qed.

Lemma elem_of_members w r g :
  w ∈ members r g ↔
  w ∈ nodes g ∧ nlabel w = Word ∧ has_root_edge (nid w) (nid r) g = true.
Proof.
  unfold members. rewrite list_elem_of_In, filter_In, <- list_elem_of_In.
  unfold has_label. rewrite andb_true_iff, bool_decide_eq_true. tauto.
Qed.

Lemma elem_of_label_filter (l : Label) (P : Node → Prop) `{∀ n, Decision (P n)}
    (n : Node) (ns : list Node) :
  n ∈ List.filter (λ n, has_label l n && bool_decide (P n)) ns ↔
  n ∈ ns ∧ nlabel n = l ∧ P n.
Proof.
  rewrite list_elem_of_In, filter_In, <- list_elem_of_In.
  unfold has_label. rewrite andb_true_iff, !bool_decide_eq_true. tauto.
Qed.

(** The rows of the pattern: a root and two of its member words, the
    first with the smaller identity. *)
Lemma elem_of_same_root_rows g w1 r w2 :
  (w1, r, w2) ∈ same_root_rows g ↔
  r ∈ nodes g ∧ nlabel r = Root ∧
  w1 ∈ members r g ∧ w2 ∈ members r g ∧ nid w1 < nid w2.
Proof.
  unfold same_root_rows. rewrite list_elem_of_bind. split.
  - intros ([i e1] & Hrow & Hi). apply elem_of_lookup_imap in Hi as (i' & e' & [= <- <-] & Hi).
    destruct (bool_decide (rtype e1 = HAS_ROOT)) eqn:T1; [| by apply elem_of_nil in Hrow].
    apply bool_decide_eq_true in T1.
    apply list_elem_of_bind in Hrow as (w1' & Hrow & Hw1).
    apply (elem_of_label_filter Word (λ n, nid n = rsrc e1)) in Hw1 as (Hw1 & Lw1 & Iw1).
    apply list_elem_of_bind in Hrow as (r' & Hrow & Hr).
    apply (elem_of_label_filter Root (λ n, nid n = rdst e1)) in Hr as (Hr & Lr & Ir).
    apply list_elem_of_bind in Hrow as ([j e2] & Hrow & Hj).
    apply elem_of_lookup_imap in Hj as (j' & e2' & [= <- <-] & Hj).
    destruct (_ && _) eqn:T2; [| by apply elem_of_nil in Hrow].
    apply andb_true_iff in T2 as [T2 D2]. apply andb_true_iff in T2 as [T2 Nij].
    apply bool_decide_eq_true in T2, D2, Nij.
    apply list_elem_of_bind in Hrow as (w2' & Hrow & Hw2).
    apply (elem_of_label_filter Word (λ n, nid n = rsrc e2)) in Hw2 as (Hw2 & Lw2 & Iw2).
    destruct (bool_decide (nid w1' < nid w2')) eqn:Lt; [| by apply elem_of_nil in Hrow].
    apply bool_decide_eq_true in Lt.
    apply list_elem_of_singleton in Hrow. injection Hrow as -> -> ->.
    split; [done |]. split; [done |]. rewrite !elem_of_members.
    split; [| split; [| done]].
    + split; [done |]. split; [done |]. apply has_root_edge_lookup. by exists i, e1.
    + split; [done |]. split; [done |]. apply has_root_edge_lookup. by exists j, e2.
  - intros (Hr & Lr & Hw1 & Hw2 & Lt).
    apply elem_of_members in Hw1 as (Hw1 & Lw1 & E1).
    apply elem_of_members in Hw2 as (Hw2 & Lw2 & E2).
    apply has_root_edge_lookup in E1 as (i & e1 & Hi & T1 & S1 & D1).
    apply has_root_edge_lookup in E2 as (j & e2 & Hj & T2 & S2 & D2).
    exists (i, e1). split; [| apply elem_of_lookup_imap; by exists i, e1].
    rewrite bool_decide_eq_true_2 by done.
    apply list_elem_of_bind. exists w1. split;
      [| by apply (elem_of_label_filter Word (λ n, nid n = rsrc e1))].
    apply list_elem_of_bind. exists r. split;
      [| by apply (elem_of_label_filter Root (λ n, nid n = rdst e1))].
    apply list_elem_of_bind. exists (j, e2).
    split; [| apply elem_of_lookup_imap; by exists j, e2].
    assert (i ≠ j) as Nij.
    { intros ->. rewrite Hi in Hj. injection Hj as ->. lia. }
    rewrite !bool_decide_eq_true_2 by done. simpl.
    apply list_elem_of_bind. exists w2. split;
      [| by apply (elem_of_label_filter Word (λ n, nid n = rsrc e2))].
    rewrite bool_decide_eq_true_2 by done. by apply list_elem_of_singleton.
Qed.

End same_root_facts.

Section ordered_pairs_facts.
Import Cypher graph_views.

Lemma elem_of_ordered_pairs a b ids :
  (a, b) ∈ ordered_pairs ids ↔ a ∈ ids ∧ b ∈ ids ∧ a < b.
Proof.
  unfold ordered_pairs. rewrite list_elem_of_bind. split.
  - intros (a' & H & Ha). apply list_elem_of_bind in H as (b' & H & Hb).
    destruct (bool_decide (a' < b')) eqn:Lt; [| by apply elem_of_nil in H].
    apply bool_decide_eq_true in Lt. apply list_elem_of_singleton in H.
    by injection H as -> ->.
  - intros (Ha & Hb & Lt). exists a. split; [| done].
    apply list_elem_of_bind. exists b. split; [| done].
    rewrite bool_decide_eq_true_2 by done. by apply list_elem_of_singleton.
Qed.

Lemma ordered_pairs_lt p ids : p ∈ ordered_pairs ids → p.1 < p.2.
Proof. destruct p as [a b]. rewrite elem_of_ordered_pairs. simpl. tauto. Qed.

Lemma NoDup_ordered_pairs ids : NoDup ids → NoDup (ordered_pairs ids).
Proof.
  intros Hnd. unfold ordered_pairs. apply NoDup_bind; [| | done].
  - intros a1 a2 [a b] _ _ H1 H2.
    apply list_elem_of_bind in H1 as (b1 & H1 & _).
    apply list_elem_of_bind in H2 as (b2 & H2 & _).
    destruct (bool_decide (a1 < b1)); [| by apply elem_of_nil in H1].
    destruct (bool_decide (a2 < b2)); [| by apply elem_of_nil in H2].
    apply list_elem_of_singleton in H1, H2. congruence.
  - intros a _. apply NoDup_bind; [| | done].
    + intros b1 b2 [a' b] _ _ H1 H2.
      destruct (bool_decide (a < b1)); [| by apply elem_of_nil in H1].
      destruct (bool_decide (a < b2)); [| by apply elem_of_nil in H2].
      apply list_elem_of_singleton in H1, H2. congruence.
    + intros b _. destruct (bool_decide (a < b)); [apply NoDup_singleton | apply NoDup_nil_2].
Qed.

Lemma length_pairs_above (a : nat) (l : list nat) :
  length (b ← l; if bool_decide (a < b) then [(a, b)] else [])
  = length (List.filter (λ b, bool_decide (a < b)) l).
Proof.
  induction l as [| b l IH]; [done |]. csimpl.
  destruct (bool_decide (a < b)); simpl; by rewrite IH.
Qed.

Lemma length_pairs_cons (x : nat) (l l2 : list nat) :
  length (a ← l; b ← x :: l2; if bool_decide (a < b) then [(a, b)] else [])
  = length (List.filter (λ a, bool_decide (a < x)) l)
    + length (a ← l; b ← l2; if bool_decide (a < b) then [(a, b)] else []).
Proof.
  induction l as [| a l IH]; [done |].
  rewrite !bind_cons, !length_app, IH.
  simpl. destruct (bool_decide (a < x)); simpl; lia.
Qed.

Lemma length_split_at (x : nat) (l : list nat) :
  x ∉ l →
  length (List.filter (λ b, bool_decide (x < b)) l)
  + length (List.filter (λ a, bool_decide (a < x)) l) = length l.
Proof.
  induction l as [| y l IH]; [done |]. intros Hx.
  apply not_elem_of_cons in Hx as [Hne Hx]. specialize (IH Hx). simpl.
  destruct (decide (x < y)).
  - rewrite bool_decide_eq_true_2, bool_decide_eq_false_2 by lia. simpl. lia.
  - rewrite bool_decide_eq_false_2, bool_decide_eq_true_2 by lia. simpl. lia.
Qed.

(** A list of [n] different identities has [n (n - 1) / 2] ordered
    pairs. *)
Lemma length_ordered_pairs ids :
  NoDup ids → 2 * length (ordered_pairs ids) = length ids * (length ids - 1).
Proof.
  induction 1 as [| x l Hx Hnd IH]; [done |].
  assert (length (ordered_pairs (x :: l)) = length l + length (ordered_pairs l)) as ->.
  { unfold ordered_pairs at 1. rewrite bind_cons, length_app.
    rewrite length_pairs_cons, length_pairs_above. simpl.
    rewrite bool_decide_eq_false_2 by lia.
    pose proof (length_split_at x l Hx). unfold ordered_pairs. lia. }
  simpl. rewrite Nat.sub_0_r. destruct l; simpl in *; lia.
Qed.

Lemma length_ordered_pairs_choose ids :
  NoDup ids → length (ordered_pairs ids) = length ids * (length ids - 1) / 2.
Proof.
  intros Hnd. rewrite <- (length_ordered_pairs ids Hnd).
  by rewrite Nat.mul_comm, Nat.div_mul.
Qed.

End ordered_pairs_facts.

Section same_root_claim.
Import Cypher neo4j_import graph_views.

Lemma passes_cy_eq a b : passes (cy_eq a b) = true → a = b.
Proof.
  unfold passes, cy_eq. intros H. apply bool_decide_eq_true in H.
  destruct a, b; try discriminate;
    (assert (H' := f_equal (default false) H); simpl in H';
     by apply bool_decide_eq_true in H').
Qed.

Lemma passes_cy_eq_refl v : v ≠ VNull → passes (cy_eq v v) = true.
Proof.
  intros Hv. unfold passes, cy_eq. apply bool_decide_eq_true.
  destruct v; try done; by rewrite bool_decide_eq_true_2.
Qed.

Lemma rprop_same_root_edge r p : rprop (same_root_edge r p) "root" = prop r "name".
Proof. unfold rprop, same_root_edge. simpl. by rewrite lookup_singleton_eq. Qed.

Lemma rel_of_same_root_req row :
  prop row.1.2 "name" ≠ VNull →
  rel_of_req (same_root_req row) = same_root_edge row.1.2 (nid row.1.1, nid row.2).
Proof.
  intros Hv. unfold rel_of_req, same_root_req, same_root_edge. simpl. f_equal.
  unfold set_props. simpl. rewrite <- insert_empty.
  unfold set_prop. by destruct (prop row.1.2 "name").
Qed.

Lemma same_root_req_self row :
  prop row.1.2 "name" ≠ VNull →
  rel_matches (same_root_req row) (rel_of_req (same_root_req row)) = true.
Proof.
  intros Hv. rewrite rel_of_same_root_req by done.
  unfold rel_matches. simpl. rewrite !bool_decide_eq_true_2 by done. simpl.
  rewrite rprop_same_root_edge, passes_cy_eq_refl; done.
Qed.

Lemma rel_matches_same_root_req row e :
  rel_matches (same_root_req row) e = true →
  rtype e = SAME_ROOT ∧ rsrc e = nid row.1.1 ∧ rdst e = nid row.2
  ∧ rprop e "root" = prop row.1.2 "name".
Proof.
  unfold rel_matches. simpl. rewrite !andb_true_iff, !bool_decide_eq_true.
  intros [[[H1 H2] H3] [H4 _]]. by apply passes_cy_eq in H4.
Qed.

#[local] Instance same_root_edge_inj r : Inj (=) (=) (same_root_edge r).
Proof. intros [a b] [a' b'] H. unfold same_root_edge in H. simpl in H. congruence. Qed.

Lemma elem_of_root_filter r g :
  r ∈ List.filter (has_label Root) (nodes g) ↔ r ∈ nodes g ∧ nlabel r = Root.
Proof.
  rewrite list_elem_of_In, filter_In, <- list_elem_of_In.
  unfold has_label. by rewrite bool_decide_eq_true.
Qed.

Lemma same_root_rows_named g row :
  roots_keyed g → row ∈ same_root_rows g → prop row.1.2 "name" ≠ VNull.
Proof.
  intros [Hname _] Hrow. destruct row as [[w1 r] w2]. simpl.
  apply elem_of_same_root_rows in Hrow as (Hr & Lr & _).
  apply Hname. by apply elem_of_root_filter.
Qed.

Lemma NoDup_member_ids r g : ids_unique g → NoDup (nid <$> members r g).
Proof.
  unfold ids_unique, members. intros Hnd.
  eapply sublist_NoDup; [exact Hnd |]. apply fmap_sublist. clear Hnd.
  induction (nodes g) as [| n ns IH]; [done |]. simpl.
  destruct (_ && _); by constructor.
Qed.

End same_root_claim.

Section same_root_pairs.
Import Cypher neo4j_import graph_views.

Lemma existsb_false_iff {A} (P : A → bool) (l : list A) :
  existsb P l = false ↔ ∀ x, x ∈ l → P x = false.
Proof.
  split.
  - intros H x Hx. destruct (P x) eqn:E; [| done].
    assert (existsb P l = true); [| congruence].
    apply existsb_exists. exists x. split; [by apply list_elem_of_In | done].
  - intros H. destruct (existsb P l) eqn:E; [| done].
    apply existsb_exists in E as (x & Hx & E). apply list_elem_of_In in Hx.
    rewrite (H x Hx) in E. done.
Qed.

Lemma elem_of_same_root_edges e r g :
  e ∈ same_root_edges r g ↔
  e ∈ rels g ∧ rtype e = SAME_ROOT ∧ rprop e "root" = prop r "name".
Proof.
  unfold same_root_edges. rewrite list_elem_of_In, filter_In, <- list_elem_of_In.
  by rewrite andb_true_iff, !bool_decide_eq_true.
Qed.

Lemma sublist_List_filter {A} (P : A → bool) (l : list A) :
  List.filter P l `sublist_of` l.
Proof.
  induction l as [| x l IH]; [done |]. simpl. destruct (P x); by constructor.
Qed.

Lemma NoDup_List_filter {A} (P : A → bool) (l : list A) :
  NoDup l → NoDup (List.filter P l).
Proof. intros Hnd. eapply sublist_NoDup; [exact Hnd | apply sublist_List_filter]. Qed.

Lemma filter_same_root_none (P : Rel → bool) (es : list Rel) :
  (∀ e, e ∈ es → rtype e ≠ SAME_ROOT) →
  List.filter (λ e, bool_decide (rtype e = SAME_ROOT) && P e) es = [].
Proof.
  induction es as [| e es IH]; intros Hnone; [done |]. simpl.
  rewrite (bool_decide_eq_false_2 (rtype e = SAME_ROOT)).
  - simpl. apply IH. intros e' He'. apply Hnone. by right.
  - apply Hnone. by left.
Qed.

(** On a store with unshared identities, keyed roots and no co-root
    relationship yet, the statement succeeds, leaves the nodes alone and
    appends, for each root, one relationship for each ordered pair of its
    member words; each relationship it appends carries the name of a
    root. *)
Lemma create_same_root_relations_pairs g :
  ids_unique g → roots_keyed g → no_same_root g →
  ∃ new,
    create_same_root_relations g = Some (mkGraph (nodes g) (rels g ++ new)) ∧
    (∀ e, e ∈ new → rtype e = SAME_ROOT) ∧
    (∀ r, r ∈ nodes g → nlabel r = Root →
      same_root_edges r (mkGraph (nodes g) (rels g ++ new))
      ≡ₚ same_root_edge r <$> ordered_pairs (nid <$> members r g)) ∧
    (∀ e, e ∈ new →
      ∃ r, r ∈ nodes g ∧ nlabel r = Root ∧ rprop e "root" = prop r "name").
Proof.
  intros Hids Hroots Hnone. unfold create_same_root_relations. cbv zeta.
  assert (existsb (λ row : Node * Node * Node,
            bool_decide (prop row.1.2 "name" = VNull)) (same_root_rows g) = false) as ->.
  { apply existsb_false_iff. intros row Hrow. apply bool_decide_eq_false.
    by apply (same_root_rows_named g). }
  destruct (merge_rels_spec (same_root_req <$> same_root_rows g) g)
    as (new & Hg & Hfrom & Hrest).
  destruct Hrest as [Hnd Hall].
  { intros q Hq. apply list_elem_of_fmap in Hq as (row & -> & Hrow).
    apply same_root_req_self. by apply (same_root_rows_named g). }
  assert (∀ e, e ∈ new → ∃ w1 r w2, (w1, r, w2) ∈ same_root_rows g
            ∧ e = same_root_edge r (nid w1, nid w2)) as Hnew.
  { intros e He. destruct (Hfrom e He) as (q & Hq & ->).
    apply list_elem_of_fmap in Hq as ([[w1 r] w2] & -> & Hrow).
    exists w1, r, w2. split; [done |].
    by apply (rel_of_same_root_req (w1, r, w2)), (same_root_rows_named g). }
  exists new. split; [by rewrite Hg |]. split.
  { intros e He. by destruct (Hnew e He) as (w1 & r & w2 & _ & ->). }
  split.
  2: { intros e He. destruct (Hnew e He) as (w1 & r & w2 & Hrow & ->).
       apply elem_of_same_root_rows in Hrow as (Hr & Lr & _).
       exists r. split; [done |]. split; [done |]. apply rprop_same_root_edge. }
  intros r Hr Lr. destruct Hroots as [Hname Hkey].
  apply NoDup_Permutation.
  - unfold same_root_edges. cbn [rels]. rewrite List.filter_app.
    rewrite (filter_same_root_none _ (rels g)) by done.
    simpl. by apply NoDup_List_filter.
  - pose proof (same_root_edge_inj r) as Hinj.
    apply NoDup_fmap_2; [done |]. by apply NoDup_ordered_pairs, NoDup_member_ids.
  - intros e. rewrite elem_of_same_root_edges, list_elem_of_fmap. cbn [rels]. split.
    + intros (He & Te & Pe). apply elem_of_app in He as [He | He].
      { by apply Hnone in He. }
      destruct (Hnew e He) as (w1 & r' & w2 & Hrow & ->).
      rewrite rprop_same_root_edge in Pe.
      apply elem_of_same_root_rows in Hrow as (Hr' & Lr' & Hw1 & Hw2 & Lt).
      assert (r' = r) as ->.
      { apply Hkey; [by apply elem_of_root_filter .. | done]. }
      exists (nid w1, nid w2). split; [done |].
      apply elem_of_ordered_pairs. split; [| split; [| done]].
      * apply list_elem_of_fmap. by exists w1.
      * apply list_elem_of_fmap. by exists w2.
    + intros ([a b] & -> & Hp). apply elem_of_ordered_pairs in Hp as (Ha & Hb & Lt).
      apply list_elem_of_fmap in Ha as (w1 & -> & Hw1).
      apply list_elem_of_fmap in Hb as (w2 & -> & Hw2).
      assert ((w1, r, w2) ∈ same_root_rows g) as Hrow.
      { by apply elem_of_same_root_rows. }
      assert (existsb (rel_matches (same_root_req (w1, r, w2))) (rels g ++ new) = true)
        as Hex.
      { apply Hall. apply list_elem_of_fmap. by exists (w1, r, w2). }
      apply existsb_exists in Hex as (e & He & Hm). apply list_elem_of_In in He.
      apply rel_matches_same_root_req in Hm as (Te & Se & De & Pe). simpl in *.
      apply elem_of_app in He as [He | He]; [by apply Hnone in He |].
      destruct (Hnew e He) as (w1' & r' & w2' & Hrow' & ->).
      rewrite rprop_same_root_edge in Pe. simpl in Se, De.
      assert (same_root_edge r' (nid w1', nid w2') = same_root_edge r (nid w1, nid w2))
        as Heq.
      { unfold same_root_edge. simpl. by rewrite Se, De, Pe. }
      rewrite <- Heq. split; [| split; [done |]].
      * apply elem_of_app. by right.
      * rewrite Heq. apply rprop_same_root_edge.
Qed.

End same_root_pairs.

(* ===================================================================== *)
(** * What the phases of the load keep *)
(* ===================================================================== *)

Section load_invariants.
Import Cypher neo4j_import graph_views.

Lemma foldl_keeps {A B} (P : A → Prop) (f : A → B → A) (l : list B) (a : A) :
  (∀ a b, P a → P (f a b)) → P a → P (foldl f a l).
Proof.
  intros Hf. revert a. induction l as [| b l IH]; intros a Ha; [done |].
  simpl. by apply IH, Hf.
Qed.

Lemma upd_props_nil n : upd_props [] n = n.
Proof. by destruct n. Qed.

Lemma loadable_empty : loadable empty_graph.
Proof.
  split; [apply NoDup_nil_2 |]. split; [split |].
  - intros r Hr. by apply elem_of_nil in Hr.
  - intros r1 r2 Hr. by apply elem_of_nil in Hr.
  - intros e He. by apply elem_of_nil in He.
Qed.

Lemma no_same_root_merge_set l k v kvs g :
  no_same_root g → no_same_root (merge_set l k v kvs g).
Proof. unfold no_same_root. by rewrite rels_merge_set. Qed.

Lemma loadable_merge_set_other l k v kvs g :
  l ≠ Root → loadable g → loadable (merge_set l k v kvs g).
Proof.
  intros Hl (Hids & Hroots & Hnone). split; [by apply ids_unique_merge_set |].
  split; [| by apply no_same_root_merge_set].
  unfold roots_keyed. rewrite filter_merge_set_other; [done |].
  intros n Hn. apply bool_decide_eq_true in Hn. congruence.
Qed.

Lemma loadable_merge_set_root v g :
  v ≠ VNull → loadable g → loadable (merge_set Root "name" v [] g).
Proof.
  intros Hv (Hids & Hroots & Hnone). split; [by apply ids_unique_merge_set |].
  split; [| by apply no_same_root_merge_set].
  unfold merge_set. destruct (existsb _ _) eqn:Ex.
  - unfold roots_keyed. cbn [nodes].
    assert (((λ n, if node_matches Root "name" v n then upd_props [] n else n)
              <$> nodes g) = nodes g) as ->; [| done].
    rewrite <- (list_fmap_id (nodes g)) at 2. apply list_fmap_ext.
    intros i n _. simpl. destruct (node_matches _ _ _ _); [apply upd_props_nil | done].
  - destruct Hroots as [Hname Hkey]. unfold roots_keyed. cbn [nodes].
    set (new := mkNode (fresh_id g) Root (set_props [] {[ "name" := v ]})).
    rewrite List.filter_app. cbn [List.filter].
    assert (has_label Root new = true) as -> by done.
    assert (prop new "name" = v) as Hnew.
    { unfold prop, new. simpl. unfold set_props. simpl. by rewrite lookup_singleton_eq. }
    assert (∀ r, r ∈ List.filter (has_label Root) (nodes g) → prop r "name" ≠ v) as Hold.
    { intros r Hr Hp. apply elem_of_root_filter in Hr as [Hr Lr].
      apply existsb_false_iff with (x := r) in Ex; [| done].
      unfold node_matches in Ex. rewrite Hp, passes_cy_eq_refl in Ex by done.
      by rewrite bool_decide_eq_true_2 in Ex. }
    split.
    + intros r Hr. apply elem_of_app in Hr as [Hr | Hr]; [by apply Hname |].
      apply list_elem_of_singleton in Hr. rewrite Hr. by rewrite Hnew.
    + intros r1 r2 H1 H2 Heq.
      apply elem_of_app in H1 as [H1 | H1]; apply elem_of_app in H2 as [H2 | H2].
      * by apply Hkey.
      * apply list_elem_of_singleton in H2. rewrite H2, Hnew in Heq.
        by apply Hold in H1.
      * apply list_elem_of_singleton in H1. rewrite H1, Hnew in Heq.
        by apply Hold in H2.
      * apply list_elem_of_singleton in H1, H2. congruence.
Qed.

Lemma loadable_merge_rels qs g :
  (∀ q, q ∈ qs → qtype q ≠ SAME_ROOT) → loadable g → loadable (merge_rels qs g).
Proof.
  intros Hqs (Hids & Hroots & Hnone).
  destruct (merge_rels_spec qs g) as (new & -> & Hfrom & _).
  split; [done |]. split; [done |].
  intros e He. cbn [rels] in He. apply elem_of_app in He as [He | He]; [by apply Hnone |].
  destruct (Hfrom e He) as (q & Hq & ->). simpl. by apply Hqs.
Qed.

End load_invariants.

Section load_phases.
Import Cypher neo4j_import graph_views.

Lemma rels_foldl_merge_set {A} l k (key : A → Value)
    (cols : A → list (string * Value)) rows g :
  rels (foldl (λ g row, merge_set l k (key row) (cols row) g) g rows) = rels g.
Proof.
  revert g. induction rows as [| row rows IH]; intros g; [done |].
  simpl. by rewrite IH, rels_merge_set.
Qed.

Lemma filter_foldl_merge_set_other {A} (P : Node → bool) l k (key : A → Value)
    (cols : A → list (string * Value)) rows g :
  (∀ n, P n = true → nlabel n ≠ l) →
  List.filter P (nodes (foldl (λ g row, merge_set l k (key row) (cols row) g) g rows))
  = List.filter P (nodes g).
Proof.
  intros HP. revert g. induction rows as [| row rows IH]; intros g; [done |].
  simpl. by rewrite IH, filter_merge_set_other.
Qed.

Lemma loadable_import_grades g : loadable g → loadable (import_grades g).
Proof.
  unfold import_grades, import_grades_query. apply foldl_keeps.
  intros g' row. by apply loadable_merge_set_other.
Qed.

Lemma loadable_import_roots roots g : loadable g → loadable (import_roots roots g).
Proof.
  intros Hg. unfold import_roots.
  assert (loadable (import_roots_query (root_data roots) g)) as Hq.
  { unfold import_roots_query, root_data. revert Hg.
    generalize (List.filter (λ r, truthy (VStr r)) roots). intros rs. revert g.
    induction rs as [| r rs IH]; intros g Hg; [done |].
    csimpl. apply IH. by apply loadable_merge_set_root. }
  by destruct (root_data roots).
Qed.

Lemma grade_relation_rows_type rows g q :
  q ∈ grade_relation_rows rows g → qtype q = BELONGS_TO.
Proof.
  unfold grade_relation_rows. intros Hq.
  apply list_elem_of_bind in Hq as (w & Hq & _).
  apply list_elem_of_bind in Hq as (word & Hq & _).
  apply list_elem_of_bind in Hq as (grade & Hq & _).
  apply list_elem_of_singleton in Hq. by subst q.
Qed.

Lemma root_relation_rows_type rows g q :
  q ∈ root_relation_rows rows g → qtype q = HAS_ROOT.
Proof.
  unfold root_relation_rows. intros Hq.
  apply list_elem_of_bind in Hq as (w & Hq & _).
  apply list_elem_of_bind in Hq as (word & Hq & _).
  destruct (passes _); [| by apply elem_of_nil in Hq].
  apply list_elem_of_bind in Hq as (root & Hq & _).
  apply list_elem_of_singleton in Hq. by subst q.
Qed.

Lemma loadable_create_word_query rows g :
  loadable g → loadable (create_word_query rows g).
Proof.
  unfold create_word_query. apply foldl_keeps.
  intros g' row. by apply loadable_merge_set_other.
Qed.

Lemma loadable_grade_relation_query rows g :
  loadable g → loadable (grade_relation_query rows g).
Proof.
  apply loadable_merge_rels. intros q Hq.
  apply grade_relation_rows_type in Hq. congruence.
Qed.

Lemma loadable_root_relation_query rows g :
  loadable g → loadable (root_relation_query rows g).
Proof.
  apply loadable_merge_rels. intros q Hq.
  apply root_relation_rows_type in Hq. congruence.
Qed.

Lemma loadable_import_words words batch_size g g' :
  import_words words batch_size g = Some g' → loadable g → loadable g'.
Proof.
  unfold import_words. cbv zeta. destruct (batches _ _) as [bs |]; [| done].
  intros [= <-] Hg.
  assert (loadable (foldl (λ g batch, grade_relation_query batch g)
                          (foldl (λ g batch, create_word_query batch g) g bs) bs)) as H.
  { apply foldl_keeps; [intros; by apply loadable_grade_relation_query |].
    apply foldl_keeps; [intros; by apply loadable_create_word_query | done]. }
  destruct (List.filter _ _); [done |]. by apply loadable_root_relation_query.
Qed.

Lemma import_words_default words g : is_Some (import_words words 100 g).
Proof. unfold import_words, batches, py_range. simpl. by eexists. Qed.

Lemma clear_database_empty g : no_dangling g → clear_database g = empty_graph.
Proof.
  intros Hg. unfold clear_database, detach_delete, empty_graph. cbv zeta. f_equal.
  - induction (nodes g) as [| n ns IH]; [done |]. done.
  - assert (List.filter (λ _ : Node, true) (nodes g) = nodes g) as ->.
    { induction (nodes g) as [| n ns IH]; [done |]. simpl. by rewrite IH. }
    unfold no_dangling in Hg. revert Hg. generalize (nid <$> nodes g). intros ids.
    induction (rels g) as [| e es IH]; intros Hg; [done |]. simpl.
    assert (existsb (λ i, touches i e) ids = true) as ->.
    { apply existsb_exists. exists (rsrc e). split.
      - apply list_elem_of_In, Hg. by left.
      - unfold touches. by rewrite bool_decide_eq_true_2. }
    simpl. apply IH. intros e' He'. apply Hg. by right.
Qed.

End load_phases.

Section loaded_pairs.
Import Cypher neo4j_import graph_views.

Lemma rels_floor_mapping g : rels (create_difficulty_floor_mapping g) = rels g.
Proof.
  unfold create_difficulty_floor_mapping.
  apply (rels_foldl_merge_set Floor "number" VInt
           (λ n, [("difficulty", VInt (floor_difficulty n))]%string)).
Qed.

Lemma filter_floor_mapping (P : Node → bool) g :
  (∀ n, P n = true → nlabel n ≠ Floor) →
  List.filter P (nodes (create_difficulty_floor_mapping g)) = List.filter P (nodes g).
Proof.
  unfold create_difficulty_floor_mapping.
  apply (filter_foldl_merge_set_other P Floor "number" VInt
           (λ n, [("difficulty", VInt (floor_difficulty n))]%string)).
Qed.

Lemma has_root_edge_rels w r g g' :
  rels g = rels g' → has_root_edge w r g = has_root_edge w r g'.
Proof. unfold has_root_edge. by intros ->. Qed.

Lemma has_root_edge_app w r ns es new :
  (∀ e, e ∈ new → rtype e = SAME_ROOT) →
  has_root_edge w r (mkGraph ns (es ++ new)) = has_root_edge w r (mkGraph ns es).
Proof.
  intros Hnew. unfold has_root_edge. cbn [rels]. rewrite existsb_app.
  assert (existsb (λ e, bool_decide (rtype e = HAS_ROOT) && bool_decide (rsrc e = w)
                        && bool_decide (rdst e = r)) new = false) as ->.
  { apply existsb_false_iff. intros e He. rewrite (Hnew e He). done. }
  by rewrite orb_false_r.
Qed.

Lemma length_filter_perm {A} (P : A → bool) (l k : list A) :
  l ≡ₚ k → length (List.filter P l) = length (List.filter P k).
Proof.
  induction 1 as [| x l k _ IH | x y l | l k m _ IH1 _ IH2]; simpl.
  - done.
  - destruct (P x); simpl; by rewrite IH.
  - by destruct (P x), (P y).
  - by rewrite IH1.
Qed.

Lemma filter_none {A} (P : A → bool) (l : list A) :
  (∀ y, y ∈ l → P y = false) → List.filter P l = [].
Proof.
  induction l as [| y l IH]; intros H; [done |]. simpl.
  rewrite (H y) by (by left). apply IH. intros y' Hy'. apply H. by right.
Qed.

(** A selection that picks one element of a duplicate-free list, and no
    other, has one element. *)
Lemma length_filter_unique {A} (P : A → bool) (l : list A) (x : A) :
  NoDup l → x ∈ l → P x = true → (∀ y, y ∈ l → P y = true → y = x) →
  length (List.filter P l) = 1.
Proof.
  induction 1 as [| y l Hy Hnd IH]; intros Hx Px Huniq.
  - by apply elem_of_nil in Hx.
  - simpl. destruct (P y) eqn:Py.
    + assert (y = x) as -> by (apply Huniq; [by left | done]).
      rewrite filter_none; [done |]. intros y' Hy'.
      destruct (P y') eqn:Py'; [| done].
      assert (y' = x) as -> by (apply Huniq; [by right | done]). done.
    + apply elem_of_cons in Hx as [-> | Hx]; [congruence |].
      apply IH; [done | done |]. intros y' Hy'. apply Huniq. by right.
Qed.

Lemma joins_same_root_edge r a b p :
  a < b → p.1 < p.2 →
  joins a b (same_root_edge r p) = true → p = (a, b).
Proof.
  destruct p as [x y]. simpl. intros Hab Hxy. unfold joins. simpl.
  rewrite orb_true_iff, !andb_true_iff, !bool_decide_eq_true.
  intros [[-> ->] | [-> ->]]; [done | lia].
Qed.

Lemma joins_comm a b e : joins a b e = joins b a e.
Proof. unfold joins. apply orb_comm. Qed.

(** How many relationships of a duplicate-free list of pair relationships
    join two given members. *)
Lemma length_joins r ids a b :
  NoDup ids → a ∈ ids → b ∈ ids → a < b →
  length (List.filter (joins a b) (same_root_edge r <$> ordered_pairs ids)) = 1.
Proof.
  intros Hnd Ha Hb Hab.
  apply (length_filter_unique _ _ (same_root_edge r (a, b))).
  - pose proof (same_root_edge_inj r) as Hinj.
    apply NoDup_fmap_2; [done |]. by apply NoDup_ordered_pairs.
  - apply list_elem_of_fmap. exists (a, b). split; [done |].
    by apply elem_of_ordered_pairs.
  - unfold joins. simpl. apply orb_true_iff. left.
    apply andb_true_iff. split; by apply bool_decide_eq_true.
  - intros e He Hj. apply list_elem_of_fmap in He as (p & -> & Hp).
    f_equal. apply (joins_same_root_edge r a b p); [done | | done].
    by apply ordered_pairs_lt in Hp.
Qed.

End loaded_pairs.

Section loaded_graph.
Import Cypher neo4j_import graph_views.

(** The store [main] hands to the co-root statement. *)
Lemma main_phases words g0 g :
  no_dangling g0 → main words g0 = Some g →
  ∃ g3 new,
    loadable g3 ∧
    (∀ e, e ∈ new → rtype e = SAME_ROOT) ∧
    g = create_difficulty_floor_mapping (mkGraph (nodes g3) (rels g3 ++ new)) ∧
    (∀ r, r ∈ nodes g3 → nlabel r = Root →
      same_root_edges r (mkGraph (nodes g3) (rels g3 ++ new))
      ≡ₚ same_root_edge r <$> ordered_pairs (nid <$> members r g3)) ∧
    (∀ e, e ∈ new →
      ∃ r, r ∈ nodes g3 ∧ nlabel r = Root ∧ rprop e "root" = prop r "name").
Proof.
  intros Hg0 Hmain. unfold main in Hmain. rewrite clear_database_empty in Hmain by done.
  unfold load in Hmain. cbv zeta in Hmain.
  destruct (import_words _ _ _) as [g3 |] eqn:E3; [| done].
  assert (loadable g3) as Hg3.
  { apply (loadable_import_words _ _ _ _ E3).
    apply loadable_import_roots, loadable_import_grades, loadable_empty. }
  destruct Hg3 as (Hids & Hroots & Hnone).
  destruct (create_same_root_relations_pairs g3 Hids Hroots Hnone)
    as (new & Hsr & Hty & Hperm & Hfrom).
  rewrite Hsr in Hmain. injection Hmain as <-.
  by exists g3, new.
Qed.

Lemma members_loaded r g3 new :
  (∀ e, e ∈ new → rtype e = SAME_ROOT) →
  members r (create_difficulty_floor_mapping (mkGraph (nodes g3) (rels g3 ++ new)))
  = members r g3.
Proof.
  intros Hty. unfold members.
  set (g4 := mkGraph (nodes g3) (rels g3 ++ new)).
  rewrite (List.filter_ext _
             (λ w, has_label Word w && has_root_edge (nid w) (nid r) g3)).
  - rewrite filter_floor_mapping; [done |].
    intros n Hn. apply andb_true_iff in Hn as [Hn _].
    apply bool_decide_eq_true in Hn. congruence.
  - intros w. f_equal.
    rewrite (has_root_edge_rels _ _ _ g4) by apply rels_floor_mapping.
    unfold g4. rewrite has_root_edge_app by done. by destruct g3.
Qed.

Lemma same_root_edges_rels r g g' :
  rels g = rels g' → same_root_edges r g = same_root_edges r g'.
Proof. unfold same_root_edges. by intros ->. Qed.

(** In a store [main] has left, the co-root relationships of each root
    are one per pair of its member words. *)
Lemma same_root_pairs_after_main words g0 g r :
  no_dangling g0 → main words g0 = Some g →
  r ∈ nodes g → nlabel r = Root →
  let ms := nid <$> members r g in
  let es := same_root_edges r g in
  length es = length ms * (length ms - 1) / 2 ∧
  (∀ e, e ∈ es → rsrc e ∈ ms ∧ rdst e ∈ ms ∧ rsrc e < rdst e) ∧
  (∀ a b, a ∈ ms → b ∈ ms → a ≠ b → length (List.filter (joins a b) es) = 1).
Proof.
  intros Hg0 Hmain Hr Lr.
  destruct (main_phases words g0 g Hg0 Hmain)
    as (g3 & new & Hg3 & Hty & -> & Hperm & _).
  assert (r ∈ nodes g3) as Hr3.
  { assert (r ∈ List.filter (has_label Root)
                  (nodes (create_difficulty_floor_mapping
                            (mkGraph (nodes g3) (rels g3 ++ new))))) as H.
    { by apply elem_of_root_filter. }
    rewrite filter_floor_mapping in H.
    - by apply elem_of_root_filter in H as [H _].
    - intros n Hn. apply bool_decide_eq_true in Hn. congruence. }
  cbv zeta. rewrite members_loaded by done.
  rewrite (same_root_edges_rels r _ (mkGraph (nodes g3) (rels g3 ++ new)))
    by apply rels_floor_mapping.
  specialize (Hperm r Hr3 Lr).
  assert (NoDup (nid <$> members r g3)) as Hnd.
  { apply NoDup_member_ids. by destruct Hg3. }
  split; [| split].
  - rewrite Hperm, length_fmap. by apply length_ordered_pairs_choose.
  - intros e He. rewrite Hperm in He.
    apply list_elem_of_fmap in He as ([a b] & -> & Hp).
    by apply elem_of_ordered_pairs in Hp.
  - intros a b Ha Hb Hab. rewrite (length_filter_perm _ _ _ Hperm).
    destruct (decide (a < b)) as [Hlt | Hge].
    + by apply length_joins.
    + rewrite (List.filter_ext _ (joins b a)) by (intros e; apply joins_comm).
      apply length_joins; [done .. | lia].
Qed.

(** And each co-root relationship carries the name of a root of the
    store. *)
Lemma same_root_named_after_main words g0 g e :
  no_dangling g0 → main words g0 = Some g →
  e ∈ rels g → rtype e = SAME_ROOT →
  ∃ r, r ∈ nodes g ∧ nlabel r = Root ∧ e ∈ same_root_edges r g.
Proof.
  intros Hg0 Hmain He Te.
  destruct (main_phases words g0 g Hg0 Hmain)
    as (g3 & new & (_ & _ & Hnone) & _ & -> & _ & Hfrom).
  rewrite rels_floor_mapping in He. cbn [rels] in He.
  assert (e ∈ new) as Hnew.
  { apply elem_of_app in He as [He | He]; [by apply Hnone in He | done]. }
  destruct (Hfrom e Hnew) as (r & Hr & Lr & Pe). exists r.
  split; [| split; [done |]].
  - assert (r ∈ List.filter (has_label Root)
                  (nodes (create_difficulty_floor_mapping
                            (mkGraph (nodes g3) (rels g3 ++ new))))) as H.
    { rewrite filter_floor_mapping.
      - by apply elem_of_root_filter.
      - intros n Hn. apply bool_decide_eq_true in Hn. congruence. }
    by apply elem_of_root_filter in H as [H _].
  - apply elem_of_same_root_edges. rewrite rels_floor_mapping. cbn [rels].
    done.
Qed.

(** [main] does not fail: no MERGE of the load meets a null key. *)
Lemma main_returns words g0 :
  no_dangling g0 → is_Some (main words g0).
Proof.
  intros Hg0. unfold main. rewrite clear_database_empty by done.
  unfold load. cbv zeta.
  destruct (import_words_default words
              (import_roots (word_parser.get_all_roots words)
                            (import_grades empty_graph))) as [g3 E3].
  rewrite E3.
  assert (loadable g3) as (Hids & Hroots & Hnone).
  { apply (loadable_import_words _ _ _ _ E3).
    apply loadable_import_roots, loadable_import_grades, loadable_empty. }
  destruct (create_same_root_relations_pairs g3 Hids Hroots Hnone) as (new & -> & _).
  by eexists.
Qed.

(** C2.  [main] returns, and in the store it leaves, for every root node
    and its member words (the word nodes with a HAS_ROOT relationship to
    it), the SAME_ROOT relationships that carry the root's name are
    [n * (n - 1) / 2] for [n] members; each goes from a member to another
    member with a greater identity, so none joins a word to itself; and
    any two distinct members are joined by exactly one of them, counting
    both directions.  The store has no other SAME_ROOT relationship: each
    one carries the name of a root node. *)
Theorem main_same_root_pairs words g0 :
  no_dangling g0 →
  ∃ g, main words g0 = Some g ∧
    (∀ r, r ∈ nodes g → nlabel r = Root →
      let ms := nid <$> members r g in
      let es := same_root_edges r g in
      length es = length ms * (length ms - 1) / 2 ∧
      (∀ e, e ∈ es → rsrc e ∈ ms ∧ rdst e ∈ ms ∧ rsrc e < rdst e) ∧
      (∀ a b, a ∈ ms → b ∈ ms → a ≠ b → length (List.filter (joins a b) es) = 1)) ∧
    (∀ e, e ∈ rels g → rtype e = SAME_ROOT →
      ∃ r, r ∈ nodes g ∧ nlabel r = Root ∧ e ∈ same_root_edges r g).
Proof.
  intros Hg0. destruct (main_returns words g0 Hg0) as [g Hg].
  exists g. split; [done |]. split.
  - intros r Hr Lr. by apply (same_root_pairs_after_main words g0).
  - intros e He Te. by apply (same_root_named_after_main words g0).
Qed.

End loaded_graph.

Section loaded_examples.
Import Cypher neo4j_import graph_views samples.

Lemma no_dangling_classroom : no_dangling classroom.
Proof.
  intros e He. unfold classroom in He. cbn [rels] in He.
  repeat (apply elem_of_cons in He as [-> | He];
          [apply list_elem_of_In; cbn; repeat first [left; reflexivity | right] |]).
  by apply elem_of_nil in He.
Qed.

Lemma main_four_entries : main four_entries classroom = Some loaded.
Proof. vm_compute. reflexivity. Qed.

Lemma act_root_loaded : act_root ∈ nodes loaded.
Proof. apply (list_elem_of_lookup_2 _ 5). vm_compute. reflexivity. Qed.

Lemma main_same_root_pairs_witness :
  length (same_root_edges act_root loaded) = 3 ∧
  length (List.filter (joins 9 7) (same_root_edges act_root loaded)) = 1.
Proof.
  destruct (main_same_root_pairs four_entries classroom no_dangling_classroom)
    as (g & Hg & Hpairs & _).
  rewrite main_four_entries in Hg. apply (inj Some) in Hg. subst g.
  destruct (Hpairs act_root act_root_loaded eq_refl) as (Hlen & _ & Hjoin).
  split.
  - rewrite Hlen. vm_compute. reflexivity.
  - apply Hjoin.
    + apply (list_elem_of_lookup_2 _ 2). vm_compute. reflexivity.
    + apply (list_elem_of_lookup_2 _ 0). vm_compute. reflexivity.
    + lia.
Defined.

End loaded_examples.

(* ===================================================================== *)
(** * The batches of [import_words] *)
(* ===================================================================== *)

Section batching.
Import Cypher neo4j_import.

Lemma create_word_query_app rows1 rows2 g :
  create_word_query (rows1 ++ rows2) g
  = create_word_query rows2 (create_word_query rows1 g).
Proof. unfold create_word_query. by rewrite foldl_app. Qed.

Lemma create_word_query_batches bl g :
  foldl (λ g batch, create_word_query batch g) g bl = create_word_query (concat bl) g.
Proof.
  revert g. induction bl as [| b bl IH]; intros g; [done |].
  simpl. by rewrite IH, create_word_query_app.
Qed.

Lemma grade_relation_rows_nodes rows g g' :
  nodes g = nodes g' → grade_relation_rows rows g = grade_relation_rows rows g'.
Proof. intros H. unfold grade_relation_rows, match_nodes. by rewrite H. Qed.

Lemma merge_rels_app qs1 qs2 g :
  merge_rels (qs1 ++ qs2) g = merge_rels qs2 (merge_rels qs1 g).
Proof. unfold merge_rels. by rewrite foldl_app. Qed.

Lemma grade_relation_query_app rows1 rows2 g :
  grade_relation_query (rows1 ++ rows2) g
  = grade_relation_query rows2 (grade_relation_query rows1 g).
Proof.
  unfold grade_relation_query.
  rewrite (grade_relation_rows_nodes rows2 (merge_rels _ g) g)
    by apply nodes_merge_rels.
  unfold grade_relation_rows at 1. rewrite bind_app. apply merge_rels_app.
Qed.

Lemma grade_relation_query_batches bl g :
  foldl (λ g batch, grade_relation_query batch g) g bl
  = grade_relation_query (concat bl) g.
Proof.
  revert g. induction bl as [| b bl IH]; intros g.
  - simpl. unfold grade_relation_query, grade_relation_rows, merge_rels. done.
  - simpl. by rewrite IH, grade_relation_query_app.
Qed.

End batching.

(* ===================================================================== *)
(** * Upserts *)
(* ===================================================================== *)

Section set_props_facts.
Import Cypher.

(** A node created with a SET list is the bare node, updated. *)
Lemma created_is_updated i l kvs (m : gmap string Value) :
  mkNode i l (set_props kvs m) = upd_props kvs (mkNode i l m).
Proof. done. Qed.

(** A SET list decides the properties it names, whatever they were. *)
Lemma lookup_set_props_named kvs (m m' : gmap string Value) j :
  j ∈ kvs.*1 → set_props kvs m !! j = set_props kvs m' !! j.
Proof.
  unfold set_props. revert m m'. induction kvs as [| [k v] kvs IH]; intros m m' Hj.
  - by apply elem_of_nil in Hj.
  - csimpl in *. destruct (decide (j ∈ kvs.*1)) as [Hin | Hnin].
    + by apply IH.
    + apply elem_of_cons in Hj as [-> | Hj]; [| done].
      fold (set_props kvs (set_prop k v m)). fold (set_props kvs (set_prop k v m')).
      rewrite !lookup_set_props_notin by done.
      rewrite !lookup_set_prop. by destruct (decide (k = k)).
Qed.

Lemma set_props_overwrite kvs1 kvs2 (m : gmap string Value) :
  kvs1.*1 = kvs2.*1 → set_props kvs2 (set_props kvs1 m) = set_props kvs2 m.
Proof.
  intros Hnames. apply map_eq. intros j.
  destruct (decide (j ∈ kvs2.*1)) as [Hin | Hnin].
  - by apply lookup_set_props_named.
  - rewrite !(lookup_set_props_notin kvs2) by done.
    apply lookup_set_props_notin. by rewrite Hnames.
Qed.

Lemma upd_props_overwrite kvs1 kvs2 n :
  kvs1.*1 = kvs2.*1 → upd_props kvs2 (upd_props kvs1 n) = upd_props kvs2 n.
Proof. intros H. unfold upd_props. simpl. by rewrite set_props_overwrite. Qed.

End set_props_facts.

Section upsert.
Import Cypher graph_views.

Context {A : Type}.
Variable l : Label.
Variable k : string.
Variable key : A → Value.
Variable cols : A → list (string * Value).
Variable names : list string.

Hypothesis cols_names : ∀ row, (cols row).*1 = names.
Hypothesis key_unnamed : k ∉ names.

#[local] Abbreviation upsert := (foldl (λ g row, merge_set l k (key row) (cols row) g)).
#[local] Abbreviation step row := (step_row l k (key row) (cols row)).
#[local] Abbreviation after := (apply_rows l k key cols).

Lemma node_matches_step v row n :
  node_matches l k v (step row n) = node_matches l k v n.
Proof.
  unfold step_row. destruct (node_matches l k (key row) n); [| done].
  apply node_matches_upd_props. by rewrite cols_names.
Qed.

Lemma node_matches_after v rows n :
  node_matches l k v (after rows n) = node_matches l k v n.
Proof.
  unfold apply_rows. revert n. induction rows as [| row rows IH]; intros n; [done |].
  simpl. by rewrite IH, node_matches_step.
Qed.

Lemma after_snoc rows row n : after (rows ++ [row]) n = step row (after rows n).
Proof. unfold apply_rows. by rewrite foldl_snoc. Qed.

Lemma after_other rows n : nlabel n ≠ l → after rows n = n.
Proof.
  intros Hl. unfold apply_rows. induction rows as [| row rows IH]; [done |].
  simpl. unfold step_row at 2.
  destruct (node_matches l k (key row) n) eqn:Hm; [| done].
  by apply node_matches_label in Hm.
Qed.

(** A later SET of the same columns makes the earlier ones forgotten. *)
Lemma upd_props_after row rows n :
  upd_props (cols row) (after rows n) = upd_props (cols row) n.
Proof.
  unfold apply_rows. revert n. induction rows as [| r rows IH]; intros n; [done |].
  simpl. rewrite IH. unfold step_row.
  destruct (node_matches l k (key r) n); [| done].
  apply upd_props_overwrite. by rewrite !cols_names.
Qed.

Lemma merge_set_present v kvs g :
  existsb (node_matches l k v) (nodes g) = true →
  merge_set l k v kvs g = mkGraph (step_row l k v kvs <$> nodes g) (rels g).
Proof. intros H. unfold merge_set. by rewrite H. Qed.

Lemma existsb_fmap_same {B} (P : B → bool) (f : B → B) (ns : list B) :
  (∀ n, P (f n) = P n) → existsb P (f <$> ns) = existsb P ns.
Proof.
  intros Hf. induction ns as [| n ns IH]; [done |]. csimpl. by rewrite Hf, IH.
Qed.

(** When every row finds its node, the upsert is a pass over the nodes. *)
Lemma upsert_present rows g :
  (∀ row, row ∈ rows → existsb (node_matches l k (key row)) (nodes g) = true) →
  upsert g rows = mkGraph (after rows <$> nodes g) (rels g).
Proof.
  revert g. induction rows as [| row rows IH]; intros g Hall.
  - simpl. rewrite list_fmap_id. by destruct g.
  - simpl. rewrite merge_set_present by (apply Hall; by left).
    rewrite IH.
    + cbn [nodes rels]. by rewrite <- list_fmap_compose.
    + intros r Hr. cbn [nodes]. rewrite existsb_fmap_same.
      * apply Hall. by right.
      * intros n. apply node_matches_step.
Qed.

(** On a settled store the upsert changes nothing. *)
Lemma upsert_settled rows g : settled l k key cols rows g → upsert g rows = g.
Proof.
  intros [Hall Hfix]. rewrite upsert_present by done.
  destruct g as [ns rs]. cbn [nodes rels] in *. f_equal.
  rewrite <- (list_fmap_id ns) at 2. apply list_fmap_ext.
  intros i n Hn. apply Hfix. by apply list_elem_of_lookup_2 in Hn.
Qed.

Lemma merge_set_keeps_present v v' kvs g :
  k ∉ kvs.*1 →
  existsb (node_matches l k v') (nodes g) = true →
  existsb (node_matches l k v') (nodes (merge_set l k v kvs g)) = true.
Proof.
  intros Hk H. unfold merge_set. destruct (existsb (node_matches l k v) _); cbn [nodes].
  - rewrite existsb_fmap_same; [done |]. intros n.
    destruct (node_matches l k v n); [| done]. by apply node_matches_upd_props.
  - by apply existsb_app_true.
Qed.

Lemma created_matches v kvs i :
  k ∉ kvs.*1 → v ≠ VNull →
  node_matches l k v (mkNode i l (set_props kvs {[ k := v ]})) = true.
Proof.
  intros Hk Hv. unfold node_matches. simpl. rewrite bool_decide_eq_true_2 by done.
  simpl. unfold prop. simpl. rewrite lookup_set_props_notin by done.
  rewrite lookup_singleton_eq. simpl. by apply passes_cy_eq_refl.
Qed.

Lemma merge_set_makes_present v kvs g :
  k ∉ kvs.*1 → v ≠ VNull →
  existsb (node_matches l k v) (nodes (merge_set l k v kvs g)) = true.
Proof.
  intros Hk Hv. destruct (existsb (node_matches l k v) (nodes g)) eqn:Ex.
  - by apply merge_set_keeps_present.
  - unfold merge_set. rewrite Ex. cbn [nodes]. rewrite existsb_app. simpl.
    rewrite created_matches by done. by rewrite orb_true_r.
Qed.

(** After an upsert the store is settled for its rows: running the same
    rows again finds every node and changes none. *)
Lemma settled_upsert rows g :
  (∀ row, row ∈ rows → key row ≠ VNull) →
  settled l k key cols rows (upsert g rows).
Proof.
  induction rows as [| row rows IH] using rev_ind; intros Hkey.
  - split; [intros row Hrow; by apply elem_of_nil in Hrow | done].
  - rewrite foldl_snoc. destruct IH as [Hall Hfix].
    { intros r Hr. apply Hkey, elem_of_app. by left. }
    assert (key row ≠ VNull) as Hrow.
    { apply Hkey, elem_of_app. right. by apply list_elem_of_singleton. }
    set (g1 := upsert g rows) in *.
    assert (k ∉ (cols row).*1) as Hk by (by rewrite cols_names).
    split.
    + intros r Hr. apply elem_of_app in Hr as [Hr | Hr].
      * apply merge_set_keeps_present; [done | by apply Hall].
      * apply list_elem_of_singleton in Hr. subst r.
        by apply merge_set_makes_present.
    + intros n' Hn'. rewrite after_snoc.
      assert (∀ n, node_matches l k (key row) n = true →
                   step row (after rows (upd_props (cols row) n))
                   = upd_props (cols row) n) as Hupd.
      { intros n Hm. unfold step_row.
        rewrite node_matches_after, node_matches_upd_props, Hm by done.
        rewrite upd_props_after. by apply upd_props_overwrite. }
      assert (∀ n, n ∈ nodes g1 → node_matches l k (key row) n = false →
                   step row (after rows n) = n) as Hkeep.
      { intros n Hn Hm. rewrite Hfix by done. unfold step_row. by rewrite Hm. }
      unfold merge_set in Hn'.
      destruct (existsb (node_matches l k (key row)) (nodes g1)) eqn:Ex;
        cbn [nodes] in Hn'.
      * apply list_elem_of_fmap in Hn' as (n & -> & Hn).
        destruct (node_matches l k (key row) n) eqn:Hm.
        -- by apply Hupd.
        -- by apply Hkeep.
      * apply elem_of_app in Hn' as [Hn' | Hn'].
        -- apply Hkeep; [done |]. by apply (proj1 (existsb_false_iff _ _) Ex).
        -- apply list_elem_of_singleton in Hn'. subst n'.
           rewrite created_is_updated. apply Hupd.
           apply (created_matches (key row) []); [apply not_elem_of_nil | done].
Qed.

(** Being settled is a matter of the nodes with the label alone. *)
Lemma settled_frame rows g g' :
  List.filter (has_label l) (nodes g') = List.filter (has_label l) (nodes g) →
  settled l k key cols rows g → settled l k key cols rows g'.
Proof.
  intros Hsame [Hall Hfix].
  assert (∀ n, nlabel n = l → n ∈ nodes g' → n ∈ nodes g) as Hin.
  { intros n Hl Hn.
    assert (n ∈ List.filter (has_label l) (nodes g')) as H.
    { apply list_elem_of_In, filter_In. split; [by apply list_elem_of_In |].
      by apply bool_decide_eq_true. }
    rewrite Hsame in H. by apply list_elem_of_In, filter_In in H as [H%list_elem_of_In _]. }
  assert (∀ n, nlabel n = l → n ∈ nodes g → n ∈ nodes g') as Hin'.
  { intros n Hl Hn.
    assert (n ∈ List.filter (has_label l) (nodes g)) as H.
    { apply list_elem_of_In, filter_In. split; [by apply list_elem_of_In |].
      by apply bool_decide_eq_true. }
    rewrite <- Hsame in H. by apply list_elem_of_In, filter_In in H as [H%list_elem_of_In _]. }
  split.
  - intros row Hrow. specialize (Hall row Hrow).
    apply existsb_exists in Hall as (n & Hn & Hm). apply existsb_exists.
    exists n. split; [| done]. apply list_elem_of_In, Hin'.
    + by apply node_matches_label in Hm.
    + by apply list_elem_of_In.
  - intros n Hn. destruct (decide (nlabel n = l)) as [Hl | Hl].
    + apply Hfix. by apply Hin.
    + by apply after_other.
Qed.

End upsert.

Section relationship_merges.
Import Cypher graph_views.

Lemma merge_rel_present q g : present q g → merge_rel q g = g.
Proof. unfold present, merge_rel. by intros ->. Qed.

(** Requests that all find their relationship leave the store alone. *)
Lemma merge_rels_present qs g : (∀ q, q ∈ qs → present q g) → merge_rels qs g = g.
Proof.
  unfold merge_rels. induction qs as [| q qs IH]; intros Hall; [done |].
  simpl. rewrite merge_rel_present by (apply Hall; by left).
  apply IH. intros q' Hq'. apply Hall. by right.
Qed.

Lemma present_grows q g g' new :
  rels g' = rels g ++ new → present q g → present q g'.
Proof. unfold present. intros -> H. by apply existsb_app_true. Qed.

Lemma present_same_rels q g g' : rels g' = rels g → present q g → present q g'.
Proof. unfold present. by intros ->. Qed.

(** A request with no property finds what it builds. *)
Lemma plain_request_self q : qprops q = [] → rel_matches q (rel_of_req q) = true.
Proof.
  intros Hq. unfold rel_matches, rel_of_req. simpl.
  rewrite !bool_decide_eq_true_2 by done. by rewrite Hq.
Qed.

Lemma merge_rels_grows qs g :
  ∃ new, nodes (merge_rels qs g) = nodes g ∧ rels (merge_rels qs g) = rels g ++ new.
Proof. destruct (merge_rels_spec qs g) as (new & -> & _). by exists new. Qed.

Lemma merge_rels_all_present qs g :
  (∀ q, q ∈ qs → rel_matches q (rel_of_req q) = true) →
  ∀ q, q ∈ qs → present q (merge_rels qs g).
Proof.
  intros Hself. destruct (merge_rels_spec qs g) as (new & -> & _ & Hrest).
  destruct (Hrest Hself) as [_ Hall]. intros q Hq. by apply Hall.
Qed.

(** Node patterns look at the nodes with their label. *)
Lemma match_nodes_by_label l k v g :
  match_nodes l k v g = List.filter (node_matches l k v) (List.filter (has_label l) (nodes g)).
Proof.
  unfold match_nodes. induction (nodes g) as [| n ns IH]; [done |]. simpl.
  unfold has_label at 1. destruct (decide (nlabel n = l)) as [Hl | Hl].
  - rewrite (bool_decide_eq_true_2 _ Hl). simpl.
    destruct (node_matches l k v n); by rewrite IH.
  - rewrite (bool_decide_eq_false_2 _ Hl).
    destruct (node_matches l k v n) eqn:Hm; [| done].
    by apply node_matches_label in Hm.
Qed.

Lemma match_nodes_frame l k v g g' :
  List.filter (has_label l) (nodes g') = List.filter (has_label l) (nodes g) →
  match_nodes l k v g' = match_nodes l k v g.
Proof. intros H. by rewrite !match_nodes_by_label, H. Qed.

End relationship_merges.

(* ===================================================================== *)
(** * What each phase of the load leaves alone *)
(* ===================================================================== *)

Section phase_frames.
Import Cypher neo4j_import graph_views.

Lemma keeps_refl l g : keeps l g g.
Proof. done. Qed.

Lemma keeps_trans l g1 g2 g3 : keeps l g1 g2 → keeps l g2 g3 → keeps l g1 g3.
Proof. unfold keeps. intros H1 H2. by rewrite H2. Qed.

Lemma keeps_nodes l g g' : nodes g' = nodes g → keeps l g g'.
Proof. unfold keeps. by intros ->. Qed.

Lemma grows_refl g : grows g g.
Proof. exists []. by rewrite app_nil_r. Qed.

Lemma grows_trans g1 g2 g3 : grows g1 g2 → grows g2 g3 → grows g1 g3.
Proof.
  intros [n1 H1] [n2 H2]. exists (n1 ++ n2). by rewrite H2, H1, app_assoc.
Qed.

Lemma grows_rels g g' : rels g' = rels g → grows g g'.
Proof. intros H. exists []. by rewrite app_nil_r. Qed.

Lemma present_grown q g g' : grows g g' → present q g → present q g'.
Proof. intros [new H]. by apply present_grows with new. Qed.

Lemma has_label_other l l' n : l ≠ l' → has_label l n = true → nlabel n ≠ l'.
Proof. intros Hl Hn. apply bool_decide_eq_true in Hn. congruence. Qed.

Lemma keeps_upsert {A} l l' k (key : A → Value) (cols : A → list (string * Value))
    rows g :
  l ≠ l' → keeps l g (foldl (λ g row, merge_set l' k (key row) (cols row) g) g rows).
Proof.
  intros Hl. unfold keeps. apply filter_foldl_merge_set_other.
  intros n. by apply has_label_other.
Qed.

Lemma import_roots_query_eq roots g :
  import_roots roots g = import_roots_query (root_data roots) g.
Proof. unfold import_roots. by destruct (root_data roots). Qed.

Lemma keeps_import_grades l g : l ≠ Grade → keeps l g (import_grades g).
Proof. intros Hl. by apply keeps_upsert. Qed.

Lemma keeps_import_roots l roots g : l ≠ Root → keeps l g (import_roots roots g).
Proof.
  intros Hl. rewrite import_roots_query_eq.
  by apply (keeps_upsert l Root "name" (λ root, field root "name") (λ _, [])).
Qed.

Lemma keeps_create_word_query l rows g : l ≠ Word → keeps l g (create_word_query rows g).
Proof. intros Hl. by apply keeps_upsert. Qed.

Lemma keeps_floor_mapping l g :
  l ≠ Floor → keeps l g (create_difficulty_floor_mapping g).
Proof.
  intros Hl.
  by apply (keeps_upsert l Floor "number" VInt
              (λ n, [("difficulty", VInt (floor_difficulty n))]%string)).
Qed.

Lemma rels_import_grades g : rels (import_grades g) = rels g.
Proof. apply rels_foldl_merge_set. Qed.

Lemma rels_import_roots roots g : rels (import_roots roots g) = rels g.
Proof.
  rewrite import_roots_query_eq.
  apply (rels_foldl_merge_set Root "name" (λ root, field root "name") (λ _, [])).
Qed.

Lemma rels_create_word_query rows g : rels (create_word_query rows g) = rels g.
Proof. apply rels_foldl_merge_set. Qed.

Lemma keeps_merge_rels l qs g : keeps l g (merge_rels qs g).
Proof. apply keeps_nodes, nodes_merge_rels. Qed.

Lemma grows_merge_rels qs g : grows g (merge_rels qs g).
Proof. destruct (merge_rels_grows qs g) as (new & _ & H). by exists new. Qed.

(** What the co-root statement does when it succeeds. *)
Lemma create_same_root_relations_Some g g' :
  create_same_root_relations g = Some g' →
  nodes g' = nodes g ∧
  (∃ new, rels g' = rels g ++ new ∧ ∀ e, e ∈ new → rtype e = SAME_ROOT) ∧
  (∀ row, row ∈ same_root_rows g → prop row.1.2 "name" ≠ VNull) ∧
  (∀ row, row ∈ same_root_rows g → present (same_root_req row) g').
Proof.
  unfold create_same_root_relations. cbv zeta.
  destruct (existsb _ _) eqn:Ex; [done |]. intros [= <-].
  assert (∀ row, row ∈ same_root_rows g → prop row.1.2 "name" ≠ VNull) as Hnamed.
  { intros row Hrow. apply (proj1 (existsb_false_iff _ _) Ex) in Hrow.
    by apply bool_decide_eq_false in Hrow. }
  assert (∀ q, q ∈ same_root_req <$> same_root_rows g →
               rel_matches q (rel_of_req q) = true) as Hself.
  { intros q Hq. apply list_elem_of_fmap in Hq as (row & -> & Hrow).
    by apply same_root_req_self, Hnamed. }
  destruct (merge_rels_spec (same_root_req <$> same_root_rows g) g)
    as (new & Hg & Hfrom & Hrest).
  destruct (Hrest Hself) as [_ Hall]. rewrite Hg. cbn [nodes rels].
  split; [done |]. split; [| split; [done |]].
  - exists new. split; [done |]. intros e He.
    destruct (Hfrom e He) as (q & Hq & ->). by apply list_elem_of_fmap in Hq as (row & -> & _).
  - intros row Hrow. unfold present. cbn [rels]. apply Hall.
    apply list_elem_of_fmap. by exists row.
Qed.

End phase_frames.

(* ===================================================================== *)
(** * Loading twice *)
(* ===================================================================== *)

Section second_load.
Import Cypher neo4j_import graph_views.

Lemma elem_of_batches {A} (batch_size : Z) (l : list A) bl x :
  batches batch_size l = Some bl → x ∈ concat bl → x ∈ l.
Proof.
  unfold batches. destruct (py_range _ _) as [starts |]; [| done].
  intros [= <-] Hx. apply list_elem_of_In, in_concat in Hx as (b & Hb & Hx).
  apply list_elem_of_In, list_elem_of_fmap in Hb as (i & -> & _).
  apply list_elem_of_In in Hx.
  by apply (subseteq_drop i l), (subseteq_take (Z.to_nat batch_size)).
Qed.

Lemma field_word_to_dict row (words : list word_parser.Word) :
  row ∈ to_dict <$> words → field row "word" ≠ VNull.
Proof. intros (w & -> & _)%list_elem_of_fmap. done. Qed.

Lemma field_name_root_data row (roots : list string) :
  row ∈ root_data roots → field row "name" ≠ VNull.
Proof. unfold root_data. intros (r & -> & _)%list_elem_of_fmap. done. Qed.

Lemma root_data_subseteq roots roots' :
  roots' ⊆ roots → root_data roots' ⊆ root_data roots.
Proof.
  intros Hsub row. unfold root_data. rewrite !list_elem_of_fmap.
  intros (r & -> & Hr). exists r. split; [done |].
  apply list_elem_of_In, filter_In in Hr as [Hr Ht].
  apply list_elem_of_In, filter_In. split; [| done].
  by apply list_elem_of_In, Hsub, list_elem_of_In.
Qed.

Lemma bind_ext_in {A B} (f h : A → list B) (l : list A) :
  (∀ x, f x = h x) → l ≫= f = l ≫= h.
Proof.
  intros Hfh. induction l as [| x l IH]; [done |]. csimpl. by rewrite Hfh, IH.
Qed.

Lemma grade_relation_rows_frame rows g g' :
  keeps Word g g' → keeps Grade g g' →
  grade_relation_rows rows g' = grade_relation_rows rows g.
Proof.
  intros HW HG. unfold grade_relation_rows. apply bind_ext_in. intros w.
  rewrite (match_nodes_frame Word _ _ g g') by done.
  apply bind_ext_in. intros word.
  by rewrite (match_nodes_frame Grade _ _ g g').
Qed.

Lemma root_relation_rows_frame rows g g' :
  keeps Word g g' → keeps Root g g' →
  root_relation_rows rows g' = root_relation_rows rows g.
Proof.
  intros HW HR. unfold root_relation_rows. apply bind_ext_in. intros w.
  rewrite (match_nodes_frame Word _ _ g g') by done.
  apply bind_ext_in. intros word.
  destruct (passes _); [| done].
  by rewrite (match_nodes_frame Root _ _ g g').
Qed.

Lemma grade_relation_rows_plain rows g q :
  q ∈ grade_relation_rows rows g → qprops q = [].
Proof.
  unfold grade_relation_rows.
  intros (w & Hq & _)%list_elem_of_bind.
  apply list_elem_of_bind in Hq as (word & Hq & _).
  apply list_elem_of_bind in Hq as (grade & Hq & _).
  by apply list_elem_of_singleton in Hq as ->.
Qed.

Lemma root_relation_rows_plain rows g q :
  q ∈ root_relation_rows rows g → qprops q = [].
Proof.
  unfold root_relation_rows.
  intros (w & Hq & _)%list_elem_of_bind.
  apply list_elem_of_bind in Hq as (word & Hq & _).
  destruct (passes _); [| by apply elem_of_nil in Hq].
  apply list_elem_of_bind in Hq as (root & Hq & _).
  by apply list_elem_of_singleton in Hq as ->.
Qed.

(** A relationship statement that ran on [g] has nothing left to do on a
    later store that kept the nodes it matches and the relationships. *)
Lemma grade_relation_query_again rows g g' :
  keeps Word g g' → keeps Grade g g' → grows (grade_relation_query rows g) g' →
  grade_relation_query rows g' = g'.
Proof.
  intros HW HG Hgr. unfold grade_relation_query.
  rewrite (grade_relation_rows_frame rows g g') by done.
  apply merge_rels_present. intros q Hq.
  apply (present_grown q _ _ Hgr). apply merge_rels_all_present; [| done].
  intros q' Hq'. by apply plain_request_self, (grade_relation_rows_plain rows g).
Qed.

Lemma root_relation_query_again rows g g' :
  keeps Word g g' → keeps Root g g' → grows (root_relation_query rows g) g' →
  root_relation_query rows g' = g'.
Proof.
  intros HW HR Hgr. unfold root_relation_query.
  rewrite (root_relation_rows_frame rows g g') by done.
  apply merge_rels_present. intros q Hq.
  apply (present_grown q _ _ Hgr). apply merge_rels_all_present; [| done].
  intros q' Hq'. by apply plain_request_self, (root_relation_rows_plain rows g).
Qed.

Lemma name_not_grade_column :
  "name"%string ∉ ["level"; "floor_start"; "floor_end"]%string.
Proof.
  apply not_elem_of_cons; split; [done |].
  apply not_elem_of_cons; split; [done |].
  apply not_elem_of_cons; split; [done |]. apply not_elem_of_nil.
Qed.

Lemma import_grades_again g g' :
  keeps Grade (import_grades g) g' → import_grades g' = g'.
Proof.
  intros HG. unfold import_grades, import_grades_query.
  apply (upsert_settled Grade "name" (λ grade, field grade "name") grade_columns
           ["level"; "floor_start"; "floor_end"]%string);
    [done | apply name_not_grade_column |].
  apply (settled_frame Grade "name" (λ grade, field grade "name") grade_columns
           grades (import_grades g)); [exact HG |].
  apply (settled_upsert Grade "name" (λ grade, field grade "name") grade_columns
           ["level"; "floor_start"; "floor_end"]%string);
    [done | apply name_not_grade_column |].
  intros row Hrow. unfold grades in Hrow.
  repeat (apply elem_of_cons in Hrow as [-> | Hrow]; [done |]).
  by apply elem_of_nil in Hrow.
Qed.

Lemma apply_rows_no_columns {A} l k (key : A → Value) rows n :
  apply_rows l k key (λ _, []) rows n = n.
Proof.
  unfold apply_rows. induction rows as [| row rows IH]; [done |]. simpl.
  unfold step_row at 2. rewrite upd_props_nil.
  by destruct (node_matches l k (key row) n).
Qed.

Lemma import_roots_again roots roots' g g' :
  roots' ⊆ roots → keeps Root (import_roots roots g) g' → import_roots roots' g' = g'.
Proof.
  intros Hsub HR. rewrite import_roots_query_eq. unfold import_roots_query.
  apply (upsert_settled Root "name" (λ root, field root "name") (λ _, []) []);
    [done | apply not_elem_of_nil |].
  assert (settled Root "name" (λ root, field root "name") (λ _, [])
            (root_data roots) g') as [Hall _].
  { apply (settled_frame Root "name" (λ root, field root "name") (λ _, [])
             (root_data roots) (import_roots roots g)); [exact HR |].
    rewrite import_roots_query_eq.
    apply (settled_upsert Root "name" (λ root, field root "name") (λ _, []) []);
      [done | apply not_elem_of_nil |].
    intros row. apply field_name_root_data. }
  split.
  - intros row Hrow. by apply Hall, (root_data_subseteq roots roots').
  - intros n _. apply apply_rows_no_columns.
Qed.

Lemma word_not_word_column :
  "word"%string ∉ ["phonetic"; "pos"; "definition"; "page"; "difficulty";
                   "is_phrase"; "mastered_count"; "wrong_count"]%string.
Proof.
  repeat (apply not_elem_of_cons; split; [done |]). apply not_elem_of_nil.
Qed.

Lemma create_word_query_again rows g g' :
  (∀ row, row ∈ rows → field row "word" ≠ VNull) →
  keeps Word (create_word_query rows g) g' → create_word_query rows g' = g'.
Proof.
  intros Hkey HW. unfold create_word_query.
  apply (upsert_settled Word "word" (λ w, field w "word") word_columns
           ["phonetic"; "pos"; "definition"; "page"; "difficulty";
            "is_phrase"; "mastered_count"; "wrong_count"]%string);
    [done | apply word_not_word_column |].
  apply (settled_frame Word "word" (λ w, field w "word") word_columns
           rows (create_word_query rows g)); [exact HW |].
  by apply (settled_upsert Word "word" (λ w, field w "word") word_columns
           ["phonetic"; "pos"; "definition"; "page"; "difficulty";
            "is_phrase"; "mastered_count"; "wrong_count"]%string);
    [| apply word_not_word_column |].
Qed.

Lemma number_not_floor_column : "number"%string ∉ ["difficulty"]%string.
Proof. apply not_elem_of_cons; split; [done |]. apply not_elem_of_nil. Qed.

Lemma floor_mapping_settled g :
  settled Floor "number" VInt
    (λ n, [("difficulty", VInt (floor_difficulty n))]%string)
    [1; 2; 3; 4; 5; 6; 7; 8; 9]%Z (create_difficulty_floor_mapping g).
Proof.
  by apply (settled_upsert Floor "number" VInt
              (λ n, [("difficulty", VInt (floor_difficulty n))]%string)
              ["difficulty"]%string);
    [| apply number_not_floor_column |].
Qed.

Lemma floor_mapping_again g g' :
  keeps Floor (create_difficulty_floor_mapping g) g' →
  create_difficulty_floor_mapping g' = g'.
Proof.
  intros HF. unfold create_difficulty_floor_mapping.
  apply (upsert_settled Floor "number" VInt
           (λ n, [("difficulty", VInt (floor_difficulty n))]%string)
           ["difficulty"]%string);
    [done | apply number_not_floor_column |].
  apply (settled_frame Floor "number" VInt
           (λ n, [("difficulty", VInt (floor_difficulty n))]%string)
           _ (create_difficulty_floor_mapping g)); [exact HF |].
  apply floor_mapping_settled.
Qed.

Lemma elem_of_keeps l g g' n :
  keeps l g g' → nlabel n = l → n ∈ nodes g' → n ∈ nodes g.
Proof.
  unfold keeps. intros Hsame Hl Hn.
  assert (n ∈ List.filter (has_label l) (nodes g')) as H.
  { apply list_elem_of_In, filter_In. split; [by apply list_elem_of_In |].
    by apply bool_decide_eq_true. }
  rewrite Hsame in H. by apply list_elem_of_In, filter_In in H as [H%list_elem_of_In _].
Qed.

Lemma has_root_edge_grown w r g g' new :
  rels g' = rels g ++ new → (∀ e, e ∈ new → rtype e = SAME_ROOT) →
  has_root_edge w r g' = has_root_edge w r g.
Proof.
  intros Hrels Hnew.
  rewrite (has_root_edge_rels w r g' (mkGraph (nodes g) (rels g ++ new))) by done.
  rewrite has_root_edge_app by done. by destruct g.
Qed.

(** Once the co-root statement has run, it has nothing left to do on a
    later store with the same words, roots and relationships. *)
Lemma create_same_root_relations_again g gS g' :
  create_same_root_relations g = Some gS →
  keeps Word gS g' → keeps Root gS g' → rels g' = rels gS →
  create_same_root_relations g' = Some g'.
Proof.
  intros Hrun HW HR Hrels.
  destruct (create_same_root_relations_Some g gS Hrun)
    as (Hnodes & (new & Hnew & Hty) & Hnamed & Hpresent).
  assert (∀ w r, has_root_edge w r g' = has_root_edge w r g) as Hedge.
  { intros w r. apply (has_root_edge_grown w r g g' new); [| done].
    by rewrite Hrels. }
  assert (∀ row, row ∈ same_root_rows g' → row ∈ same_root_rows g) as Hrows.
  { intros [[w1 r] w2]. rewrite !elem_of_same_root_rows, !elem_of_members.
    rewrite !Hedge. rewrite <- Hnodes.
    intros (Hr & Lr & (Hw1 & L1 & E1) & (Hw2 & L2 & E2) & Hlt).
    repeat split; try done.
    - by apply (elem_of_keeps Root gS g').
    - by apply (elem_of_keeps Word gS g').
    - by apply (elem_of_keeps Word gS g'). }
  unfold create_same_root_relations. cbv zeta.
  assert (existsb (λ row : Node * Node * Node,
            bool_decide (prop row.1.2 "name" = VNull)) (same_root_rows g') = false) as ->.
  { apply existsb_false_iff. intros row Hrow. apply bool_decide_eq_false.
    by apply Hnamed, Hrows. }
  f_equal. apply merge_rels_present. intros q Hq.
  apply list_elem_of_fmap in Hq as (row & -> & Hrow).
  apply (present_same_rels _ gS g' Hrels). by apply Hpresent, Hrows.
Qed.

End second_load.

(* ===================================================================== *)
(** * The load, run again *)
(* ===================================================================== *)

Section load_twice.
Import Cypher neo4j_import graph_views.

(** [import_words] on the batches it cuts: the word statement and the
    grade statement as if run once on all their rows, then the root
    statement. *)
Lemma import_words_batches words batch_size bl g :
  batches batch_size (to_dict <$> words) = Some bl →
  import_words words batch_size g
  = Some (root_relation_query
            (List.filter (λ w, truthy (field w "root")) (to_dict <$> words))
            (grade_relation_query (concat bl) (create_word_query (concat bl) g))).
Proof.
  intros Hbl. unfold import_words. cbv zeta. rewrite Hbl.
  rewrite create_word_query_batches, grade_relation_query_batches.
  by destruct (List.filter _ _).
Qed.

(** A run of the load that came to its end has left nothing for a second
    run to do: every MERGE finds what it asks for, and every SET writes
    what is there. *)
Lemma load_again roots words batch_size g g1 :
  load roots words batch_size g = Some g1 →
  load roots words batch_size g1 = Some g1.
Proof.
  intros Hload. unfold load in Hload. cbv zeta in Hload.
  destruct (batches batch_size (to_dict <$> words)) as [bl |] eqn:Hbl.
  2: { unfold import_words in Hload. cbv zeta in Hload. by rewrite Hbl in Hload. }
  rewrite (import_words_batches words batch_size bl _ Hbl) in Hload.
  set (rows := concat bl) in *.
  set (wr := List.filter (λ w, truthy (field w "root")) (to_dict <$> words)) in *.
  set (gG := import_grades g) in *.
  set (gR := import_roots roots gG) in *.
  set (gW1 := create_word_query rows gR) in *.
  set (gW2 := grade_relation_query rows gW1) in *.
  set (g3 := root_relation_query wr gW2) in *.
  destruct (create_same_root_relations g3) as [gS |] eqn:HS; [| done].
  apply (inj Some) in Hload. subst g1.
  set (g1 := create_difficulty_floor_mapping gS).
  destruct (create_same_root_relations_Some g3 gS HS) as (Hnodes & (new & Hnew & _) & _).
  assert (K1 : ∀ l, l ≠ Root → keeps l gG gR).
  { intros l Hl. by apply keeps_import_roots. }
  assert (K2 : ∀ l, l ≠ Word → keeps l gR gW1).
  { intros l Hl. by apply keeps_create_word_query. }
  assert (K3 : ∀ l, keeps l gW1 gW2) by (intros l; apply keeps_merge_rels).
  assert (K4 : ∀ l, keeps l gW2 g3) by (intros l; apply keeps_merge_rels).
  assert (K5 : ∀ l, keeps l g3 gS) by (intros l; by apply keeps_nodes).
  assert (K6 : ∀ l, l ≠ Floor → keeps l gS g1).
  { intros l Hl. by apply keeps_floor_mapping. }
  assert (G4 : grows gW2 g3) by apply grows_merge_rels.
  assert (G5 : grows g3 gS) by (by exists new).
  assert (G6 : grows gS g1) by apply grows_rels, rels_floor_mapping.
  assert (K36 : ∀ l, l ≠ Floor → keeps l gW2 g1).
  { intros l Hl. eapply keeps_trans; [apply K4 |].
    eapply keeps_trans; [apply K5 |]. by apply K6. }
  assert (K26 : ∀ l, l ≠ Floor → keeps l gW1 g1).
  { intros l Hl. eapply keeps_trans; [apply K3 |]. by apply K36. }
  assert (HG : import_grades g1 = g1).
  { apply (import_grades_again g). fold gG.
    eapply keeps_trans; [by apply K1 |].
    eapply keeps_trans; [by apply K2 |]. by apply K26. }
  assert (HR : import_roots roots g1 = g1).
  { apply (import_roots_again roots roots gG); [done |]. fold gR.
    eapply keeps_trans; [by apply K2 |]. by apply K26. }
  assert (HW1 : create_word_query rows g1 = g1).
  { apply (create_word_query_again rows gR).
    - intros row Hrow. apply (field_word_to_dict row words).
      by apply (elem_of_batches batch_size _ bl).
    - fold gW1. by apply K26. }
  assert (HW2 : grade_relation_query rows g1 = g1).
  { apply (grade_relation_query_again rows gW1); [by apply K26 .. |]. fold gW2.
    eapply grows_trans; [exact G4 |]. eapply grows_trans; [exact G5 | exact G6]. }
  assert (HW3 : root_relation_query wr g1 = g1).
  { apply (root_relation_query_again wr gW2); [by apply K36 .. |]. fold g3.
    eapply grows_trans; [exact G5 | exact G6]. }
  assert (HSR : create_same_root_relations g1 = Some g1).
  { apply (create_same_root_relations_again g3 gS); [done | by apply K6 .. |].
    apply rels_floor_mapping. }
  assert (HF : create_difficulty_floor_mapping g1 = g1).
  { apply (floor_mapping_again gS). apply keeps_refl. }
  unfold load. cbv zeta. rewrite HG, HR.
  rewrite (import_words_batches words batch_size bl _ Hbl).
  fold rows wr. rewrite HW1, HW2, HW3, HSR. by rewrite HF.
Qed.

End load_twice.

Section load_again_claim.
Import Cypher neo4j_import graph_views.

Lemma no_dangling_merge_set l k v kvs g :
  no_dangling g → no_dangling (merge_set l k v kvs g).
Proof.
  intros Hg e He. rewrite rels_merge_set in He. rewrite ids_merge_set.
  destruct (existsb _ _); [by apply Hg |]. apply elem_of_app. left. by apply Hg.
Qed.

Lemma no_dangling_merge_rels qs g :
  (∀ q, q ∈ qs → qsrc q ∈ nid <$> nodes g) →
  no_dangling g → no_dangling (merge_rels qs g).
Proof.
  intros Hqs Hg. destruct (merge_rels_spec qs g) as (new & -> & Hfrom & _).
  intros e He. cbn [rels nodes] in *. apply elem_of_app in He as [He | He].
  - by apply Hg.
  - destruct (Hfrom e He) as (q & Hq & ->). by apply Hqs.
Qed.

Lemma elem_of_match_nodes l k v g n : n ∈ match_nodes l k v g → n ∈ nodes g.
Proof.
  unfold match_nodes. intros Hn.
  by apply list_elem_of_In, filter_In in Hn as [Hn%list_elem_of_In _].
Qed.

Lemma grade_relation_rows_src rows g q :
  q ∈ grade_relation_rows rows g → qsrc q ∈ nid <$> nodes g.
Proof.
  unfold grade_relation_rows.
  intros (w & Hq & _)%list_elem_of_bind.
  apply list_elem_of_bind in Hq as (word & Hq & Hword).
  apply list_elem_of_bind in Hq as (grade & Hq & _).
  apply list_elem_of_singleton in Hq as ->. simpl.
  apply list_elem_of_fmap. exists word. split; [done |].
  by apply elem_of_match_nodes in Hword.
Qed.

Lemma root_relation_rows_src rows g q :
  q ∈ root_relation_rows rows g → qsrc q ∈ nid <$> nodes g.
Proof.
  unfold root_relation_rows.
  intros (w & Hq & _)%list_elem_of_bind.
  apply list_elem_of_bind in Hq as (word & Hq & Hword).
  destruct (passes _); [| by apply elem_of_nil in Hq].
  apply list_elem_of_bind in Hq as (root & Hq & _).
  apply list_elem_of_singleton in Hq as ->. simpl.
  apply list_elem_of_fmap. exists word. split; [done |].
  by apply elem_of_match_nodes in Hword.
Qed.

Lemma no_dangling_create_same_root_relations g g' :
  create_same_root_relations g = Some g' → no_dangling g → no_dangling g'.
Proof.
  unfold create_same_root_relations. cbv zeta.
  destruct (existsb _ _); [done |]. intros [= <-].
  apply no_dangling_merge_rels. intros q Hq.
  apply list_elem_of_fmap in Hq as ([[w1 r] w2] & -> & Hrow). simpl.
  apply elem_of_same_root_rows in Hrow as (_ & _ & Hw1 & _).
  apply elem_of_members in Hw1 as (Hw1 & _).
  apply list_elem_of_fmap. by exists w1.
Qed.

(** The load keeps every relationship on a node of the store. *)
Lemma no_dangling_load roots words batch_size g g1 :
  load roots words batch_size g = Some g1 → no_dangling g → no_dangling g1.
Proof.
  unfold load. cbv zeta. intros Hload Hg.
  destruct (import_words _ _ _) as [g3 |] eqn:HW; [| done].
  destruct (create_same_root_relations g3) as [gS |] eqn:HS; [| done].
  apply (inj Some) in Hload. subst g1.
  unfold create_difficulty_floor_mapping.
  apply foldl_keeps; [intros; by apply no_dangling_merge_set |].
  apply (no_dangling_create_same_root_relations g3); [done |].
  unfold import_words in HW. cbv zeta in HW.
  destruct (batches _ _) as [bl |]; [| done]. apply (inj Some) in HW. subst g3.
  assert (no_dangling (import_roots roots (import_grades g))) as HR.
  { rewrite import_roots_query_eq. unfold import_roots_query.
    apply foldl_keeps; [intros; by apply no_dangling_merge_set |].
    unfold import_grades, import_grades_query.
    apply foldl_keeps; [intros; by apply no_dangling_merge_set | done]. }
  assert (no_dangling (foldl (λ g batch, grade_relation_query batch g)
                         (foldl (λ g batch, create_word_query batch g)
                            (import_roots roots (import_grades g)) bl) bl)) as HW2.
  { apply foldl_keeps.
    - intros g' batch Hg'. apply no_dangling_merge_rels; [| done].
      intros q. apply grade_relation_rows_src.
    - apply foldl_keeps; [| done]. intros g' batch Hg'. unfold create_word_query.
      apply foldl_keeps; [intros; by apply no_dangling_merge_set | done]. }
  destruct (List.filter _ _); [done |].
  apply no_dangling_merge_rels; [| done]. intros q. apply root_relation_rows_src.
Qed.

(** C1.  Whenever a run of the load comes to its end, a second run on the
    store it left, with the same entries, returns that store again: no
    node and no relationship is added or changed.  [main] comes to its
    end; on the store it leaves, the load run again, and [main] run
    again, return the same store, so the counts [get_statistics] reads
    for Word, Grade, Root, BELONGS_TO, HAS_ROOT and SAME_ROOT are the same
    after the second run. *)
Theorem load_twice_same_state words :
  (∀ roots batch_size g g1,
     load roots words batch_size g = Some g1 →
     load roots words batch_size g1 = Some g1) ∧
  (∀ g0, no_dangling g0 →
     ∃ g1, main words g0 = Some g1 ∧
           load (word_parser.get_all_roots words) words 100 g1 = Some g1 ∧
           main words g1 = Some g1 ∧
           get_statistics <$> load (word_parser.get_all_roots words) words 100 g1
             = Some (get_statistics g1) ∧
           get_statistics <$> main words g1 = Some (get_statistics g1)).
Proof.
  split; [intros roots; apply load_again |].
  intros g0 Hg0. destruct (main_returns words g0 Hg0) as [g1 Hmain].
  exists g1. split; [done |].
  set (roots := word_parser.get_all_roots words) in *.
  assert (load roots words 100 empty_graph = Some g1) as Hload.
  { unfold main in Hmain. by rewrite clear_database_empty in Hmain. }
  assert (load roots words 100 g1 = Some g1) as Hagain by (by apply load_again in Hload).
  assert (main words g1 = Some g1) as Hmain'.
  { unfold main. rewrite clear_database_empty; [done |].
    apply (no_dangling_load roots words 100 empty_graph); [done |].
    intros e He. by apply elem_of_nil in He. }
  split; [done |]. split; [done |]. by rewrite Hagain, Hmain'.
Qed.

End load_again_claim.

Section load_again_examples.
Import Cypher neo4j_import graph_views samples.

Lemma load_four_entries :
  load (word_parser.get_all_roots four_entries) four_entries 100 empty_graph
  = Some loaded.
Proof. vm_compute. reflexivity. Qed.

Lemma load_twice_same_state_witness :
  main four_entries classroom = Some loaded ∧
  load (word_parser.get_all_roots four_entries) four_entries 100 loaded = Some loaded ∧
  main four_entries loaded = Some loaded ∧
  get_statistics loaded = mkStatistics 4 5 1 4 3 3.
Proof.
  destruct (load_twice_same_state four_entries) as [Hany Hmain].
  destruct (Hmain classroom no_dangling_classroom) as (g1 & Hg1 & _ & Hagain & _).
  rewrite main_four_entries in Hg1. apply (inj Some) in Hg1. subst g1.
  split; [apply main_four_entries |].
  split; [exact (Hany _ _ _ _ load_four_entries) |].
  split; [exact Hagain |].
  vm_compute. reflexivity.
Defined.

End load_again_examples.
